(** * bun-yt-clipper: the job orchestration core of [server.ts]

    A shallow embedding of the clip server: the time helpers, the clip
    request handler, the progress store and its WebSocket fan-out, the
    background clip pipeline driven by the events of the two external
    tools, and the subtitle-to-text conversion.

    Conventions.
    - A JavaScript string is a [string]: the code units are the 8-bit
      characters of [ascii] (code units 0 to 255).
    - Integer-valued numbers (seconds, exit codes, progress) are [Z]; a
      number that may be [NaN] is a [number].  The percentage printed by
      the downloader is a rational, [Q].
    - The two process-wide tables are [gmap]s, a [Set] of sockets is a
      [gset] of socket identities. *)

From Stdlib Require Import ZArith QArith Qround Ascii String DecimalString DecimalPos.
From stdpp Require Import gmap strings list sorting.

Local Open Scope string_scope.
Local Open Scope Z_scope.
Local Open Scope list_scope.

#[local] Set Warnings "-clear-no-such-hyp".

(** ** Characters *)

Definition code (c : ascii) : Z := Z.of_N (N_of_ascii c).

(** [\d] *)
Definition is_digit (c : ascii) : bool := (48 <=? code c) && (code c <=? 57).

(** [[0-5]] *)
Definition is_digit_0_5 (c : ascii) : bool := (48 <=? code c) && (code c <=? 53).

(** White space as [trim] and [parseInt] strip it, among the code units
    below 256: TAB, LF, VT, FF, CR, space and NBSP. *)
Definition is_white_space (c : ascii) : bool :=
  ((9 <=? code c) && (code c <=? 13)) || (code c =? 32) || (code c =? 160).

(** The value of [c] as a digit in the given radix, as [parseInt] reads it. *)
Definition digit_in (radix : Z) (c : ascii) : option Z :=
  let v :=
    if is_digit c then code c - 48
    else if (97 <=? code c) && (code c <=? 122) then code c - 87
    else if (65 <=? code c) && (code c <=? 90) then code c - 55
    else 36 in
  if v <? radix then Some v else None.

(** ** Strings *)

(** [s.split(sep)] for a one-character separator. *)
Fixpoint split (sep : ascii) (s : string) : list string :=
  match s with
  | EmptyString => [EmptyString]
  | String c s' =>
      if Ascii.eqb c sep then EmptyString :: split sep s'
      else match split sep s' with
           | h :: t => String c h :: t
           | [] => [String c EmptyString]
           end
  end.

Fixpoint trimStart (s : string) : string :=
  match s with
  | String c s' => if is_white_space c then trimStart s' else s
  | EmptyString => EmptyString
  end.

Fixpoint trimEnd (s : string) : string :=
  match s with
  | String c s' =>
      match trimEnd s' with
      | EmptyString => if is_white_space c then EmptyString else String c EmptyString
      | r => String c r
      end
  | EmptyString => EmptyString
  end.

Definition trim (s : string) : string := trimEnd (trimStart s).

(** [s.startsWith(p)] *)
Definition startsWith (p s : string) : bool := String.prefix p s.

(** [s.includes(p)] *)
Fixpoint includes (p s : string) : bool :=
  String.prefix p s ||
  match s with
  | String _ s' => includes p s'
  | EmptyString => false
  end.

(** [ls.join(sep)] *)
Definition join (sep : string) (ls : list string) : string := String.concat sep ls.

(** [s.padStart(2, "0")] *)
Definition padStart2 (s : string) : string :=
  match s with
  | EmptyString => "00"
  | String c EmptyString => String "0" s
  | _ => s
  end.

Fixpoint all_digits (s : string) : bool :=
  match s with
  | String c s' => is_digit c && all_digits s'
  | EmptyString => true
  end.

(** [/^\d+$/] *)
Definition is_number_line (s : string) : bool :=
  match s with
  | EmptyString => false
  | _ => all_digits s
  end.

(** What is left of [s] after its longest prefix of digits. *)
Fixpoint skip_digits (s : string) : string :=
  match s with
  | String c s' => if is_digit c then skip_digits s' else s
  | EmptyString => EmptyString
  end.

(** ** Numbers *)

(** An integer-valued JavaScript number, or [NaN]. *)
Inductive number := NaN | Int (z : Z).

Definition num_add (a b : number) : number :=
  match a, b with Int x, Int y => Int (x + y) | _, _ => NaN end.

Definition num_sub (a b : number) : number :=
  match a, b with Int x, Int y => Int (x - y) | _, _ => NaN end.

Definition num_mul (a b : number) : number :=
  match a, b with Int x, Int y => Int (x * y) | _, _ => NaN end.

(** [a >= b] and [a > b]: a comparison with [NaN] is false. *)
Definition num_ge (a b : number) : bool :=
  match a, b with Int x, Int y => y <=? x | _, _ => false end.

Definition num_gt (a b : number) : bool :=
  match a, b with Int x, Int y => y <? x | _, _ => false end.

(** [z.toString()] *)
Definition Z_toString (z : Z) : string := NilZero.string_of_int (Z.to_int z).

(** The leading digits of [s] in the given radix, most significant first. *)
Fixpoint leading_digits (radix : Z) (s : string) : list Z :=
  match s with
  | String c s' =>
      match digit_in radix c with
      | Some d => d :: leading_digits radix s'
      | None => []
      end
  | EmptyString => []
  end.

Definition digits_value (radix : Z) (ds : list Z) : Z :=
  fold_left (fun acc d => acc * radix + d) ds 0.

(** [parseInt(s)] with no radix argument: leading white space, a sign, a
    [0x] prefix, then the longest run of digits; [NaN] when that is empty. *)
Definition parseInt (s : string) : number :=
  let s1 := trimStart s in
  let '(sign, s2) :=
    match s1 with
    | String c r =>
        if Ascii.eqb c "-" then (-1, r)
        else if Ascii.eqb c "+" then (1, r)
        else (1, s1)
    | EmptyString => (1, s1)
    end in
  let '(radix, s3) :=
    match s2 with
    | String c (String x r) =>
        if Ascii.eqb c "0" && (Ascii.eqb x "x" || Ascii.eqb x "X")
        then (16, r) else (10, s2)
    | _ => (10, s2)
    end in
  match leading_digits radix s3 with
  | [] => NaN
  | ds => Int (sign * digits_value radix ds)
  end.

(** ** Results of code that may throw *)

Inductive result (A : Type) :=
  | Ok (a : A)
  | Throw (msg : string).
Arguments Ok {A} a.
Arguments Throw {A} msg.

(** ** Time helpers *)

Definition timeToSeconds (timeStr : string) : result number :=
  match split ":" timeStr with
  | [p0; p1] =>
      Ok (num_add (num_mul (parseInt p0) (Int 60)) (parseInt p1))
  | [p0; p1; p2] =>
      Ok (num_add (num_add (num_mul (parseInt p0) (Int 3600))
                           (num_mul (parseInt p1) (Int 60)))
                  (parseInt p2))
  | _ => Throw "Invalid time format"
  end.

(** [Math.floor(a / b)] is [a / b] on [Z]; [a % b] takes the sign of [a]
    and is [Z.rem]. *)
Definition formatSeconds (seconds : number) : string :=
  match seconds with
  | NaN => "NaN:NaN"
  | Int s =>
      let hours := s / 3600 in
      let minutes := Z.rem s 3600 / 60 in
      let secs := Z.rem s 60 in
      if 0 <? hours then
        padStart2 (Z_toString hours) +:+ ":" +:+ padStart2 (Z_toString minutes)
          +:+ ":" +:+ padStart2 (Z_toString secs)
      else
        padStart2 (Z_toString minutes) +:+ ":" +:+ padStart2 (Z_toString secs)
  end.

(** The pattern of [ClipRequestSchema] for both times:
    [/^\d+:[0-5]\d(:[0-5]\d)?$/]. *)
Definition time_pattern (s : string) : bool :=
  match s with
  | String c _ =>
      is_digit c &&
      match skip_digits s with
      | String colon (String a (String b rest)) =>
          Ascii.eqb colon ":" && is_digit_0_5 a && is_digit b &&
          match rest with
          | EmptyString => true
          | String colon' (String c' (String d EmptyString)) =>
              Ascii.eqb colon' ":" && is_digit_0_5 c' && is_digit d
          | _ => false
          end
      | _ => false
      end
  | EmptyString => false
  end.

(** ** The percentage in a line of the downloader *)

(** The longest prefix of digits of [s]. *)
Fixpoint take_digits (s : string) : string :=
  match s with
  | String c s' => if is_digit c then String c (take_digits s') else EmptyString
  | EmptyString => EmptyString
  end.

(** A match of the progress pattern that starts at the head of [s]: one or
    more digits, an optional dot and any number of digits, which make the
    capture group, then a percent sign.  The quantifiers are greedy, and
    giving back a character never helps: a shorter run of digits is followed
    by a digit, where the pattern wants the dot or the percent sign. *)
Definition percent_here (s : string) : option string :=
  match take_digits s with
  | EmptyString => None
  | d1 =>
      let r1 := skip_digits s in
      let '(dot, r2) :=
        match r1 with
        | String c r => if Ascii.eqb c "." then (".", r) else (EmptyString, r1)
        | EmptyString => (EmptyString, r1)
        end in
      match skip_digits r2 with
      | String c _ =>
          if Ascii.eqb c "%" then Some (d1 +:+ dot +:+ take_digits r2) else None
      | EmptyString => None
      end
  end.

(** [line.match] on the progress pattern: the capture group of the leftmost
    match. *)
Fixpoint match_percent (line : string) : option string :=
  match percent_here line with
  | Some m => Some m
  | None =>
      match line with
      | String _ s' => match_percent s'
      | EmptyString => None
      end
  end.

Definition decimal_value (s : string) : Z := digits_value 10 (leading_digits 10 s).

(** [parseFloat] on a capture of the pattern above, digits with an optional
    fraction: the rational the numeral denotes.  JavaScript rounds it to the
    nearest double; this rounding, which leaves [floor (p * 0.5)] as it is
    for a numeral of up to 15 significant digits, is not modelled. *)
Definition parseFloat (m : string) : Q :=
  let frac :=
    match skip_digits m with
    | String c r => if Ascii.eqb c "." then take_digits r else EmptyString
    | EmptyString => EmptyString
    end in
  Qmake (decimal_value (take_digits m +:+ frac))
        (Z.to_pos (10 ^ Z.of_nat (String.length frac))).

(** [x.toFixed(1)] for a non-negative [x]: the nearest multiple of one
    tenth, the larger one on a tie. *)
Definition toFixed1 (x : Q) : string :=
  let n := Qfloor (x * (10 # 1) + (1 # 2)) in
  Z_toString (n / 10) +:+ "." +:+ Z_toString (n mod 10).

(** ** Progress records, sockets and the process-wide tables *)

Inductive Status := downloading | processing | completed | error.

#[global] Instance Status_eq_dec : EqDecision Status.
Proof. solve_decision. Defined.

Record DownloadProgress := {
  status : Status;
  progress : Z;
  message : string;
  filename : option string;
  download_url : option string
}.

(** A socket: its identity and the [id] parameter of the URL it was opened
    with ([url.searchParams.get("id")]). *)
Record ServerWebSocket := {
  sock : nat;
  query_id : option string
}.

#[global] Instance ServerWebSocket_eq_dec : EqDecision ServerWebSocket.
Proof. solve_decision. Defined.

#[global] Instance ServerWebSocket_countable : Countable ServerWebSocket.
Proof.
  refine (inj_countable' (λ ws, (sock ws, query_id ws))
                         (λ p, {| sock := p.1; query_id := p.2 |}) _).
  by intros [].
Defined.

(** The object that [broadcastProgress] serialises and sends. *)
Record ProgressMessage := {
  msg_type : string;
  msg_download_id : string;
  msg_data : DownloadProgress
}.

Definition WebSocket_OPEN : Z := 1.

(** The state of the server: the two tables, the [readyState] of every
    socket, and two logs that only record what was done, in order: each
    [ws.send] and each [downloadProgress.set]. *)
Record World := {
  downloadProgress : gmap string DownloadProgress;
  clients : gmap string (gset ServerWebSocket);
  readyState : ServerWebSocket → Z;
  sent : list (ServerWebSocket * ProgressMessage);
  writes : list (string * DownloadProgress)
}.

(** [downloadProgress.set(id, record)] *)
Definition downloadProgress_set (id : string) (r : DownloadProgress) (w : World) : World :=
  {| downloadProgress := <[id := r]> (downloadProgress w);
     clients := clients w;
     readyState := readyState w;
     sent := sent w;
     writes := writes w ++ [(id, r)] |}.

(** [ws.send(message)] *)
Definition ws_send (ws : ServerWebSocket) (m : ProgressMessage) (w : World) : World :=
  {| downloadProgress := downloadProgress w;
     clients := clients w;
     readyState := readyState w;
     sent := sent w ++ [(ws, m)];
     writes := writes w |}.

Definition set_clients (c : gmap string (gset ServerWebSocket)) (w : World) : World :=
  {| downloadProgress := downloadProgress w;
     clients := c;
     readyState := readyState w;
     sent := sent w;
     writes := writes w |}.

Definition progress_message (downloadId : string) (progress : DownloadProgress)
    : ProgressMessage :=
  {| msg_type := "progress";
     msg_download_id := downloadId;
     msg_data := progress |}.

(** The body of the loop of [broadcastProgress]. *)
Definition send_if_open (m : ProgressMessage) (w : World) (ws : ServerWebSocket) : World :=
  if readyState w ws =? WebSocket_OPEN then ws_send ws m w else w.

(** [broadcastProgress].  JavaScript visits a [Set] in the order of
    insertion, the model in the order of [elements]; in both, a socket is
    visited once. *)
Definition broadcastProgress (downloadId : string) (w : World) : World :=
  match downloadProgress w !! downloadId with
  | None => w
  | Some progress =>
      match clients w !! downloadId with
      | None => w
      | Some clientSet =>
          let message := progress_message downloadId progress in
          foldl (send_if_open message) w (elements clientSet)
      end
  end.

(** Whether [ws] is in the set of [downloadId] in [clients]. *)
Definition is_attached (downloadId : string) (ws : ServerWebSocket) (w : World) : bool :=
  match clients w !! downloadId with
  | Some clientSet => bool_decide (ws ∈ clientSet)
  | None => false
  end.

(** What a socket has been sent, oldest first. *)
Definition sent_to (ws : ServerWebSocket) (w : World) : list ProgressMessage :=
  omap (λ e : ServerWebSocket * ProgressMessage,
          if decide (e.1 = ws) then Some e.2 else None)
       (sent w).

(** [if (downloadId)]: neither [null] nor the empty string. *)
Definition truthy (o : option string) : option string :=
  match o with
  | Some EmptyString => None
  | _ => o
  end.

(** [websocket.open] *)
Definition websocket_open (ws : ServerWebSocket) (w : World) : World :=
  match truthy (query_id ws) with
  | Some downloadId =>
      let c :=
        match clients w !! downloadId with
        | None => <[downloadId := ∅]> (clients w)
        | Some _ => clients w
        end in
      set_clients (alter (λ s, {[ws]} ∪ s) downloadId c) w
  | None => w
  end.

(** [websocket.close] *)
Definition websocket_close (ws : ServerWebSocket) (w : World) : World :=
  match truthy (query_id ws) with
  | Some downloadId =>
      match clients w !! downloadId with
      | Some _ => set_clients (alter (λ s, s ∖ {[ws]}) downloadId (clients w)) w
      | None => w
      end
  | None => w
  end.

(** ** The clip request *)

(** The value [req.json()] resolves to. *)
#[warnings="-register-all"]
Inductive json :=
  | JNull
  | JBool (b : bool)
  | JNumber (n : Z)
  | JString (s : string)
  | JArray (items : list json)
  | JObject (fields : list (string * json)).

(** [obj[k]]: of two members with the same key the later one wins. *)
Fixpoint get_field (k : string) (fields : list (string * json)) : option json :=
  match fields with
  | [] => None
  | (k', v) :: rest =>
      match get_field k rest with
      | Some v' => Some v'
      | None => if String.eqb k k' then Some v else None
      end
  end.

Record ClipRequest := {
  url : string;
  start_time : string;
  end_time : string
}.

(** A [z.string()] member with one more check. *)
Definition string_member (k : string) (check : string → bool)
    (fields : list (string * json)) : option string :=
  match get_field k fields with
  | Some (JString s) => if check s then Some s else None
  | _ => None
  end.

Inductive Promise := Pending | Fulfilled | Rejected (reason : string).

(** The background clip job: its parameters, the promises of
    [runYTDLPWithProgress] and of [runFFmpeg] (the latter once it has been
    called, which is also when the first [ffmpeg] is spawned), whether the
    re-encoding [ffmpeg] has been spawned, and an [error] event that found
    no listener. *)
Record Pipeline := {
  job_id : string;
  job_url : string;
  startSeconds : number;
  endSeconds : number;
  download : Promise;
  cut : option Promise;
  reencodeProc : bool;
  uncaught : option string
}.

Inductive ResponseBody :=
  | ErrorBody (err : string) (details : option (list string))
  | ClipQueued (success : bool) (id file link : string).

Record Response := {
  http_status : Z;
  body : ResponseBody
}.

(** What [generateId] reads from its environment: [new Date().toISOString()]
    and the bytes of [randomBytes(4)]. *)
Record Clock := {
  toISOString : string;
  randomBytes : list ascii
}.

Fixpoint remove_chars (p : ascii → bool) (s : string) : string :=
  match s with
  | String c s' => if p c then remove_chars p s' else String c (remove_chars p s')
  | EmptyString => EmptyString
  end.

Definition hex_digit (n : Z) : ascii :=
  match String.get (Z.to_nat n) "0123456789abcdef" with
  | Some c => c
  | None => "0"%char
  end.

(** [bytes.toString("hex")] *)
Fixpoint hex (bytes : list ascii) : string :=
  match bytes with
  | b :: rest => String (hex_digit (code b / 16)) (String (hex_digit (code b mod 16)) (hex rest))
  | [] => EmptyString
  end.

Definition generateId (clock : Clock) : string :=
  let timestamp :=
    String.substring 0 15
      (remove_chars (λ c, Ascii.eqb c "-" || Ascii.eqb c ":" || Ascii.eqb c "T")
                    (toISOString clock)) in
  "clip_" +:+ timestamp +:+ "_" +:+ hex (randomBytes clock).

Definition initial_record : DownloadProgress :=
  {| status := downloading; progress := 0; message := "Starting download...";
     filename := None; download_url := None |}.

Section Handler.

(** [z.string().url()]: whether the URL parser of the runtime accepts the
    string. *)
Variable is_url : string → bool.

(** [ClipRequestSchema.safeParse(body)]: the parsed request, or the paths
    of the members with an issue ([[]] at the root). *)
Definition ClipRequestSchema_safeParse (b : json) : ClipRequest + list string :=
  match b with
  | JObject fields =>
      match string_member "url" is_url fields,
            string_member "start_time" time_pattern fields,
            string_member "end_time" time_pattern fields with
      | Some u, Some s, Some e =>
          inl {| url := u; start_time := s; end_time := e |}
      | u, s, e =>
          inr ((if u is Some _ then [] else ["url"]) ++
               (if s is Some _ then [] else ["start_time"]) ++
               (if e is Some _ then [] else ["end_time"]))
      end
  | _ => inr []
  end.

(** [handleDownloadClip]: the response, the state of the server when the
    handler returns, and the background job it started, if any.  The job
    has then run up to its first [await]: [yt-dlp] is spawned and nothing
    has been written yet. *)
Definition handleDownloadClip (reqBody : result json) (clock : Clock) (w : World)
    : Response * World * option Pipeline :=
  let internal msg :=
    ({| http_status := 500;
        body := ErrorBody ("Error processing video: " +:+ msg) None |}, w, None) in
  let bad_request msg details :=
    ({| http_status := 400; body := ErrorBody msg details |}, w, None) in
  match reqBody with
  | Throw msg => internal msg
  | Ok b =>
      match ClipRequestSchema_safeParse b with
      | inr issues => bad_request "Invalid request" (Some issues)
      | inl req =>
          match timeToSeconds (start_time req) with
          | Throw msg => internal msg
          | Ok start =>
              match timeToSeconds (end_time req) with
              | Throw msg => internal msg
              | Ok stop =>
                  if num_ge start stop then
                    bad_request "Start time must be before end time" None
                  else if num_gt (num_sub stop start) (Int 600) then
                    bad_request "Clip duration cannot exceed 10 minutes" None
                  else
                    let downloadId := generateId clock in
                    let w' := downloadProgress_set downloadId initial_record w in
                    ({| http_status := 200;
                        body := ClipQueued true downloadId (downloadId +:+ ".mp4")
                                  ("/api/download-file/" +:+ downloadId +:+ ".mp4") |},
                     w',
                     Some {| job_id := downloadId;
                             job_url := url req;
                             startSeconds := start;
                             endSeconds := stop;
                             download := Pending;
                             cut := None;
                             reencodeProc := false;
                             uncaught := None |})
              end
          end
      end
  end.

End Handler.

(** ** The background pipeline *)

(** The three child processes of a clip job and what each can emit. *)
Inductive Proc := yt_dlp | ffmpeg | ffmpeg_reencode.

Inductive ProcEvent :=
  | stderr_data (data : string)
  | close (code : option Z)
  | proc_error (err : string).

(** [`${code}`] *)
Definition code_toString (c : option Z) : string :=
  match c with
  | Some z => Z_toString z
  | None => "null"
  end.

Definition record (st : Status) (p : Z) (msg : string) : DownloadProgress :=
  {| status := st; progress := p; message := msg;
     filename := None; download_url := None |}.

Definition completed_record (downloadId : string) : DownloadProgress :=
  {| status := completed; progress := 100; message := "Done!";
     filename := Some (downloadId +:+ ".mp4");
     download_url := Some ("/api/download-file/" +:+ downloadId +:+ ".mp4") |}.

(** The record of the [stderr] listener for a reported [percent]:
    [Math.min(Math.floor(percent * 0.5), 50)] and the message. *)
Definition download_record (percent : Q) : DownloadProgress :=
  let progress := Z.min (Qfloor (percent * (1 # 2))) 50 in
  record downloading progress ("Downloading... " +:+ toFixed1 percent +:+ "%").

(** The [stderr] listener of [runYTDLPWithProgress]. *)
Definition on_stderr_data (downloadId : string) (data : string) (w : World) : World :=
  match match_percent data with
  | Some m =>
      let percent := parseFloat m in
      broadcastProgress downloadId
        (downloadProgress_set downloadId (download_record percent) w)
  | None => w
  end.

Definition set_download (d : Promise) (p : Pipeline) : Pipeline :=
  {| job_id := job_id p; job_url := job_url p;
     startSeconds := startSeconds p; endSeconds := endSeconds p;
     download := d; cut := cut p;
     reencodeProc := reencodeProc p; uncaught := uncaught p |}.

Definition set_cut (c : option Promise) (p : Pipeline) : Pipeline :=
  {| job_id := job_id p; job_url := job_url p;
     startSeconds := startSeconds p; endSeconds := endSeconds p;
     download := download p; cut := c;
     reencodeProc := reencodeProc p; uncaught := uncaught p |}.

Definition set_reencodeProc (b : bool) (p : Pipeline) : Pipeline :=
  {| job_id := job_id p; job_url := job_url p;
     startSeconds := startSeconds p; endSeconds := endSeconds p;
     download := download p; cut := cut p;
     reencodeProc := b; uncaught := uncaught p |}.

Definition set_uncaught (e : string) (p : Pipeline) : Pipeline :=
  {| job_id := job_id p; job_url := job_url p;
     startSeconds := startSeconds p; endSeconds := endSeconds p;
     download := download p; cut := cut p;
     reencodeProc := reencodeProc p; uncaught := Some e |}.

(** The [catch] block of the job. *)
Definition on_catch (msg : string) (p : Pipeline) (w : World) : Pipeline * World :=
  (p, broadcastProgress (job_id p)
        (downloadProgress_set (job_id p) (record error 0 msg) w)).

(** The job after [await runYTDLPWithProgress(...)]: the record of the cut
    stage, then the call of [runFFmpeg], which spawns the first [ffmpeg]. *)
Definition after_download (p : Pipeline) (w : World) : Pipeline * World :=
  (set_cut (Some Pending) p,
   broadcastProgress (job_id p)
     (downloadProgress_set (job_id p) (record processing 60 "Cutting video...") w)).

(** The job after [await runFFmpeg(...)].  Deleting the temporary file and
    [cleanupOldFiles] touch neither table and swallow their errors. *)
Definition after_cut (p : Pipeline) (w : World) : Pipeline * World :=
  (p, broadcastProgress (job_id p)
        (downloadProgress_set (job_id p) (completed_record (job_id p)) w)).

(** [resolve] and [reject] of the download promise.  Only the first
    settlement counts; the job, which awaits the promise, resumes then,
    before any other event is handled. *)
Definition settle_download (outcome : Promise) (p : Pipeline) (w : World)
    : Pipeline * World :=
  match download p with
  | Pending =>
      match outcome with
      | Fulfilled => after_download (set_download outcome p) w
      | Rejected msg => on_catch msg (set_download outcome p) w
      | Pending => (p, w)
      end
  | _ => (p, w)
  end.

(** [resolve] and [reject] of the promise of [runFFmpeg]. *)
Definition settle_cut (outcome : Promise) (p : Pipeline) (w : World)
    : Pipeline * World :=
  match cut p with
  | Some Pending =>
      match outcome with
      | Fulfilled => after_cut (set_cut (Some outcome) p) w
      | Rejected msg => on_catch msg (set_cut (Some outcome) p) w
      | Pending => (p, w)
      end
  | _ => (p, w)
  end.

(** The listeners [runYTDLPWithProgress] registers on [yt-dlp]: [data] of
    [stderr], [close] and [error]. *)
Definition runYTDLPWithProgress_on (ev : ProcEvent) (p : Pipeline) (w : World)
    : Pipeline * World :=
  match ev with
  | stderr_data data => (p, on_stderr_data (job_id p) data w)
  | close code =>
      if decide (code = Some 0) then
        settle_download Fulfilled p
          (broadcastProgress (job_id p)
             (downloadProgress_set (job_id p)
                (record processing 50 "Processing video...") w))
      else
        settle_download
          (Rejected ("Download failed with code " +:+ code_toString code)) p w
  | proc_error err => settle_download (Rejected err) p w
  end.

(** The listeners [runFFmpeg] registers on the first [ffmpeg]: [close],
    which spawns the re-encoding [ffmpeg] on a non-zero code, and [error]. *)
Definition runFFmpeg_proc_on (ev : ProcEvent) (p : Pipeline) (w : World)
    : Pipeline * World :=
  match ev with
  | stderr_data _ => (p, w)
  | close code =>
      if decide (code = Some 0) then settle_cut Fulfilled p w
      else (set_reencodeProc true p, w)
  | proc_error err => settle_cut (Rejected err) p w
  end.

(** The one listener [runFFmpeg] registers on the re-encoding [ffmpeg]:
    [close].  Its [error] event has no listener, which makes it an uncaught
    exception. *)
Definition runFFmpeg_reencodeProc_on (ev : ProcEvent) (p : Pipeline) (w : World)
    : Pipeline * World :=
  match ev with
  | stderr_data _ => (p, w)
  | close code2 =>
      if decide (code2 = Some 0) then settle_cut Fulfilled p w
      else settle_cut
             (Rejected ("FFmpeg failed with code " +:+ code_toString code2)) p w
  | proc_error err => (set_uncaught err p, w)
  end.

(** One event of one child process, handled by the listeners registered on
    it.  A process that has not been spawned emits nothing, and nothing is
    handled after an uncaught exception. *)
Definition deliver (proc : Proc) (ev : ProcEvent) (p : Pipeline) (w : World)
    : Pipeline * World :=
  match uncaught p with
  | Some _ => (p, w)
  | None =>
      match proc with
      | yt_dlp => runYTDLPWithProgress_on ev p w
      | ffmpeg =>
          match cut p with
          | None => (p, w)
          | Some _ => runFFmpeg_proc_on ev p w
          end
      | ffmpeg_reencode =>
          if reencodeProc p then runFFmpeg_reencodeProc_on ev p w else (p, w)
      end
  end.

(** What one child process does from its spawn to its end: it runs, writes
    chunks to [stderr] and closes with an exit code ([None] when a signal
    ended it), or it cannot be spawned, which the runtime reports as an
    [error] event followed by [close] with the negated [errno]. *)
Inductive ProcRun :=
  | runs (stderr : list string) (code : option Z)
  | fails_to_spawn (err : string) (errno : positive).

Definition events_of (r : ProcRun) : list ProcEvent :=
  match r with
  | runs stderr code => map stderr_data stderr ++ [close code]
  | fails_to_spawn err errno => [proc_error err; close (Some (Z.neg errno))]
  end.

Definition feed (proc : Proc) (evs : list ProcEvent) (s : Pipeline * World)
    : Pipeline * World :=
  foldl (λ s ev, deliver proc ev s.1 s.2) s evs.

(** A whole job, given what each process does once spawned.  The stages are
    sequential: [ffmpeg] is spawned when [yt-dlp] has closed, the
    re-encoding [ffmpeg] when the first one has. *)
Definition run_pipeline (tools : Proc → ProcRun) (p : Pipeline) (w : World)
    : Pipeline * World :=
  let s1 := feed yt_dlp (events_of (tools yt_dlp)) (p, w) in
  let s2 := if cut s1.1 is Some _
            then feed ffmpeg (events_of (tools ffmpeg)) s1 else s1 in
  if reencodeProc s2.1
  then feed ffmpeg_reencode (events_of (tools ffmpeg_reencode)) s2 else s2.

(** A job as [handleDownloadClip] leaves it. *)
Definition started (p : Pipeline) : bool :=
  match download p, cut p, reencodeProc p, uncaught p with
  | Pending, None, false, None => true
  | _, _, _, _ => false
  end.

(** The percentages a run of [yt-dlp] reports: the capture of the progress
    pattern in each chunk that has one, as a number. *)
Definition reported (stderr : list string) : list Q :=
  map parseFloat (omap match_percent stderr).

(** The records of the download stage, read off the listeners of
    [runYTDLPWithProgress] and the code that awaits it. *)
Definition stage_A_records (yt : ProcRun) : list DownloadProgress :=
  match yt with
  | runs stderr code =>
      map download_record (reported stderr) ++
      (if decide (code = Some 0)
       then [record processing 50 "Processing video...";
             record processing 60 "Cutting video..."]
       else [record error 0 ("Download failed with code " +:+ code_toString code)])
  | fails_to_spawn err _ => [record error 0 err]
  end.

Definition download_ok (yt : ProcRun) : bool :=
  match yt with
  | runs _ code => bool_decide (code = Some 0)
  | fails_to_spawn _ _ => false
  end.

(** The records of the cut stage, read off the listeners of [runFFmpeg] and
    the code that awaits it. *)
Definition stage_B_records (id : string) (ff re : ProcRun) : list DownloadProgress :=
  match ff with
  | runs _ code =>
      if decide (code = Some 0) then [completed_record id]
      else
        match re with
        | runs _ code2 =>
            if decide (code2 = Some 0) then [completed_record id]
            else [record error 0 ("FFmpeg failed with code " +:+ code_toString code2)]
        | fails_to_spawn _ _ => []
        end
  | fails_to_spawn err _ => [record error 0 err]
  end.

Definition job_records (id : string) (tools : Proc → ProcRun) : list DownloadProgress :=
  stage_A_records (tools yt_dlp) ++
  (if download_ok (tools yt_dlp)
   then stage_B_records id (tools ffmpeg) (tools ffmpeg_reencode)
   else []).

(** [w'] is [w] after the records [rs] of job [id] have been written and
    published one after the other, and nothing else has happened. *)
Definition published (id : string) (rs : list DownloadProgress) (w w' : World) : Prop :=
  writes w' = writes w ++ map (pair id) rs ∧
  clients w' = clients w ∧
  readyState w' = readyState w ∧
  downloadProgress w' = foldl (λ m r, <[id := r]> m) (downloadProgress w) rs ∧
  ∀ ws, sent_to ws w' =
          sent_to ws w ++
          (if is_attached id ws w && (readyState w ws =? WebSocket_OPEN)
           then map (progress_message id) rs else []).

(** The message of the failure that reaches the [catch] block of the job,
    if the run has one: every rejection of the two awaited promises. *)
Definition caught_failure (tools : Proc → ProcRun) : option string :=
  match tools yt_dlp with
  | fails_to_spawn err _ => Some err
  | runs _ code =>
      if decide (code = Some 0) then
        match tools ffmpeg with
        | fails_to_spawn err _ => Some err
        | runs _ code1 =>
            if decide (code1 = Some 0) then None
            else
              match tools ffmpeg_reencode with
              | runs _ code2 =>
                  if decide (code2 = Some 0) then None
                  else Some ("FFmpeg failed with code " +:+ code_toString code2)
              | fails_to_spawn _ _ => None
              end
        end
      else Some ("Download failed with code " +:+ code_toString code)
  end.

(** The percentages reported during a run of [yt-dlp]. *)
Definition reported_by (yt : ProcRun) : list Q :=
  match yt with
  | runs stderr _ => reported stderr
  | fails_to_spawn _ _ => []
  end.

(** The progress values of the records whose status is not [error], in the
    order they were written, never decrease. *)
Definition nondecreasing_until_error (rs : list DownloadProgress) : Prop :=
  StronglySorted Z.le (map progress (filter (λ r, status r ≠ error) rs)).

Definition terminal (st : Status) : bool :=
  match st with
  | completed | error => true
  | _ => false
  end.

(** A record with a terminal status is the last one of [rs]. *)
Definition terminal_last (rs : list DownloadProgress) : Prop :=
  ∀ before r after,
    rs = before ++ r :: after → terminal (status r) = true → after = [].

(** The records a job has written, oldest first. *)
Definition writes_of (id : string) (w : World) : list DownloadProgress :=
  omap (λ e : string * DownloadProgress, if decide (e.1 = id) then Some e.2 else None)
       (writes w).


(** ** Subtitles as plain text *)

Definition newline : ascii := "010"%char.

(** Whether a tag opens right after a ["<"]: one character or more, none
    of them [">"], then [">"]. *)
Fixpoint has_gt (s : string) : bool :=
  match s with
  | String c s' => Ascii.eqb c ">" || has_gt s'
  | EmptyString => false
  end.

Definition opens_tag (rest : string) : bool :=
  match rest with
  | String c _ => negb (Ascii.eqb c ">") && has_gt rest
  | EmptyString => false
  end.

(** [s.replace] of every match of [/<[^>]+>/] by the empty string, scanning
    left to right; [in_tag] holds while inside a match, up to its closing
    [">"]. *)
Fixpoint strip_tags_from (in_tag : bool) (s : string) : string :=
  match s with
  | EmptyString => EmptyString
  | String c s' =>
      if in_tag then
        strip_tags_from (negb (Ascii.eqb c ">")) s'
      else if Ascii.eqb c "<" && opens_tag s' then
        strip_tags_from true s'
      else
        String c (strip_tags_from false s')
  end.

Definition strip_tags (s : string) : string := strip_tags_from false s.

(** Whether [/<[^>]+>/] matches somewhere in [s]. *)
Fixpoint has_tag (s : string) : bool :=
  match s with
  | String c s' => (Ascii.eqb c "<" && opens_tag s') || has_tag s'
  | EmptyString => false
  end.

Definition is_empty (s : string) : bool :=
  match s with EmptyString => true | _ => false end.

(** [textLines.includes(line)] *)
Definition list_includes (l : list string) (x : string) : bool :=
  existsb (String.eqb x) l.

(** One turn of the loop of [convertSubtitleToText] over the state
    [(textLines, skipNext)]. *)
Definition subtitle_step (st : list string * bool) (line : string)
    : list string * bool :=
  let '(textLines, skipNext) := st in
  let trimmed := trim line in
  if is_empty trimmed then st
  else if is_number_line trimmed then (textLines, true)
  else if includes "-->" trimmed || skipNext then (textLines, false)
  else if startsWith "WEBVTT" trimmed || startsWith "NOTE" trimmed
          || startsWith "STYLE" trimmed then st
  else
    let cleanLine := strip_tags trimmed in
    if negb (is_empty cleanLine) && negb (list_includes textLines cleanLine)
    then (textLines ++ [cleanLine], skipNext)
    else st.

(** The array [textLines] when the loop ends. *)
Definition subtitle_text_lines (content : string) : list string :=
  (foldl subtitle_step ([], false) (split newline content)).1.

Definition convertSubtitleToText (content : string) : string :=
  join (String newline EmptyString) (subtitle_text_lines content).

(** The elements of [l] in the order of their first occurrence. *)
Definition first_occurrences (l : list string) : list string :=
  foldl (λ acc x, if list_includes acc x then acc else acc ++ [x]) [] l.

(** A line that is neither a sequence number nor a timing line. *)
Definition is_text_line (t : string) : Prop :=
  is_number_line t = false ∧ includes "-->" t = false.

(** ** Sample inputs *)

Definition sample_clock : Clock :=
  {| toISOString := "2026-11-02T22:53:01.123Z";
     randomBytes := ["001"; "255"; "171"; "016"]%char |}.

Definition empty_world : World :=
  {| downloadProgress := ∅; clients := ∅; readyState := λ _, WebSocket_OPEN;
     sent := []; writes := [] |}.

Definition sample_socket : ServerWebSocket :=
  {| sock := 1; query_id := Some "job" |}.

Definition sample_record : DownloadProgress :=
  {| status := downloading; progress := 25; message := "Downloading... 50.0%";
     filename := None; download_url := None |}.

(** One job with one attached, open socket. *)
Definition watched_world : World :=
  {| downloadProgress := {[ "job" := sample_record ]};
     clients := {[ "job" := {[ sample_socket ]} ]};
     readyState := λ _, WebSocket_OPEN;
     sent := []; writes := [] |}.

Definition sample_job : Pipeline :=
  {| job_id := "job"; job_url := "https://example.org/v";
     startSeconds := Int 10; endSeconds := Int 40;
     download := Pending; cut := None; reencodeProc := false; uncaught := None |}.

(** The state right after the handler has queued [sample_job], with one
    open socket attached to it. *)
Definition queued_world : World :=
  {| downloadProgress := {[ "job" := initial_record ]};
     clients := {[ "job" := {[ sample_socket ]} ]};
     readyState := λ _, WebSocket_OPEN;
     sent := []; writes := [("job", initial_record)] |}.

(** A download of two streams, each reported from 0 to 100 percent, then a
    cut that succeeds at once. *)
Definition two_streams (proc : Proc) : ProcRun :=
  match proc with
  | yt_dlp =>
      runs ["[download]  80.0% of 10.00MiB at 1.00MiB/s ETA 00:02";
            "[download] 100% of 10.00MiB in 00:10";
            "[download]  20.0% of 1.00MiB at 1.00MiB/s ETA 00:01";
            "[download] 100% of 1.00MiB in 00:01"] (Some 0)
  | _ => runs [] (Some 0)
  end.

(** A download whose percentages only grow, then a cut that succeeds. *)
Definition one_stream (proc : Proc) : ProcRun :=
  match proc with
  | yt_dlp =>
      runs ["[download]  20.0% of 10.00MiB"; "no percentage here";
            "[download]  80.5% of 10.00MiB"; "[download] 100% of 10.00MiB"] (Some 0)
  | _ => runs [] (Some 0)
  end.

(** The download succeeds, the stream copy exits with 1 and the re-encoding
    [ffmpeg] cannot be spawned. *)
Definition retry_not_spawned (proc : Proc) : ProcRun :=
  match proc with
  | yt_dlp => runs ["[download] 100% of 10.00MiB"] (Some 0)
  | ffmpeg => runs [] (Some 1)
  | ffmpeg_reencode => fails_to_spawn "spawn ffmpeg EAGAIN" 11
  end.

(** The download exits with 1. *)
Definition download_fails (proc : Proc) : ProcRun :=
  match proc with
  | yt_dlp => runs ["[download]  20.0% of 10.00MiB"] (Some 1)
  | _ => runs [] (Some 0)
  end.

Definition clip_body (start stop : string) : json :=
  JObject [("url", JString "https://example.org/v");
           ("start_time", JString start); ("end_time", JString stop)].

(** ** Proof automation *)

(** Closes the side conditions of [digit_not]. *)
Ltac not_a_digit := first [done | left; reflexivity | right; reflexivity].

(** Runs the listeners on a job whose state is known. *)
Ltac run_step :=
  cbn [deliver runYTDLPWithProgress_on runFFmpeg_proc_on runFFmpeg_reencodeProc_on
       settle_download settle_cut after_download after_cut on_catch
       set_download set_cut set_reencodeProc set_uncaught
       feed foldl events_of fst snd
       job_id download cut reencodeProc uncaught].

(** ** Further helpers on strings *)

(** Whether the character [c] occurs in [s]. *)
Fixpoint has_char (c : ascii) (s : string) : bool :=
  match s with
  | String c' s' => Ascii.eqb c' c || has_char c s'
  | EmptyString => false
  end.

(** How often the character [c] occurs in [s]. *)
Fixpoint count_char (c : ascii) (s : string) : nat :=
  match s with
  | String c' s' => (if Ascii.eqb c' c then 1 else 0) + count_char c s'
  | EmptyString => 0
  end.

(** [[0-5]\d], the whole string. *)
Definition two_digit_string (s : string) : bool :=
  match s with
  | String a (String b EmptyString) => is_digit_0_5 a && is_digit b
  | _ => false
  end.

(** ** The shape of a subtitle file *)

(** One cue of an SRT file as lines: its sequence number, its timing line,
    its text lines, and the blank lines that follow. *)
Record Cue := {
  cue_number : string;
  cue_timing : string;
  cue_text : list string;
  cue_gap : list string
}.

Definition cue_lines (c : Cue) : list string :=
  cue_number c :: cue_timing c :: cue_text c ++ cue_gap c.

(** A line of text as the loop of [convertSubtitleToText] keeps it: not
    blank, not a number, without a timing arrow and not a WebVTT header. *)
Definition is_cue_text (line : string) : bool :=
  negb (is_empty (trim line)) &&
  negb (is_number_line (trim line)) &&
  negb (includes "-->" (trim line)) &&
  negb (startsWith "WEBVTT" (trim line) || startsWith "NOTE" (trim line)
        || startsWith "STYLE" (trim line)).

(** A cue whose number is a number, whose timing line is neither blank nor
    a number, whose text lines are lines of text and whose gap is blank. *)
Definition well_formed_cue (c : Cue) : bool :=
  is_number_line (trim (cue_number c)) &&
  negb (is_empty (trim (cue_timing c))) &&
  negb (is_number_line (trim (cue_timing c))) &&
  forallb is_cue_text (cue_text c) &&
  forallb (λ line, is_empty (trim line)) (cue_gap c).

(** A line before the first cue that the loop passes over: blank, or a
    WebVTT header. *)
Definition is_header_line (line : string) : bool :=
  is_empty (trim line) ||
  (negb (is_number_line (trim line)) && negb (includes "-->" (trim line)) &&
   (startsWith "WEBVTT" (trim line) || startsWith "NOTE" (trim line)
    || startsWith "STYLE" (trim line))).

(** [textLines] after the texts [xs] have been pushed, each unless it is
    already there. *)
Definition add_texts (textLines xs : list string) : list string :=
  foldl (λ acc x, if list_includes acc x then acc else acc ++ [x]) textLines xs.

(** The texts of some lines that are not empty once cleaned. *)
Definition texts_of (lines : list string) : list string :=
  filter (λ l, is_empty l = false) (map (λ line, strip_tags (trim line)) lines).

(** The text of a line: trimmed, then without its tags. *)
Definition clean_text (line : string) : string := strip_tags (trim line).

Definition sample_srt : string :=
  "1" +:+ String newline "00:00:01,000 --> 00:00:02,000" +:+ String newline
  "<i>Hello</i>" +:+ String newline EmptyString +:+ String newline
  "2" +:+ String newline "00:00:02,000 --> 00:00:03,000" +:+ String newline
  "Hello" +:+ String newline "world".

Definition sample_cues : list Cue :=
  [ {| cue_number := "1"; cue_timing := "00:00:01,000 --> 00:00:02,000";
       cue_text := ["<i>Hello</i>"]; cue_gap := [EmptyString] |};
    {| cue_number := "2"; cue_timing := "00:00:02,000 --> 00:00:03,000";
       cue_text := ["Hello"; "world"]; cue_gap := [] |} ].

(** ** The progress endpoint *)

Inductive ProgressReply :=
  | ProgressFound (progress : DownloadProgress)
  | ProgressNotFound (err : string).

Record ProgressResponse := {
  progress_http_status : Z;
  progress_reply : ProgressReply
}.

(** [parts[parts.length - 1]] of [pathname.split("/")]. *)
Definition last_segment (pathname : string) : string :=
  default EmptyString (last (split "/" pathname)).

(** [handleGetProgress], given the path of the request URL. *)
Definition handleGetProgress (pathname : string) (w : World) : ProgressResponse :=
  let downloadId := last_segment pathname in
  match downloadProgress w !! downloadId with
  | None =>
      {| progress_http_status := 404;
         progress_reply := ProgressNotFound "Download not found" |}
  | Some progress =>
      {| progress_http_status := 200; progress_reply := ProgressFound progress |}
  end.

(** A run in which the download and the cut succeed, the cut at once or by
    its retry. *)
Definition job_succeeds (tools : Proc → ProcRun) : bool :=
  download_ok (tools yt_dlp) &&
  match tools ffmpeg with
  | runs _ code =>
      bool_decide (code = Some 0) ||
      match tools ffmpeg_reencode with
      | runs _ code2 => bool_decide (code2 = Some 0)
      | fails_to_spawn _ _ => false
      end
  | fails_to_spawn _ _ => false
  end.

(** The download succeeds, the stream copy exits with 1 and the re-encoding
    succeeds. *)
Definition retry_succeeds (proc : Proc) : ProcRun :=
  match proc with
  | yt_dlp => runs ["[download] 100% of 10.00MiB"] (Some 0)
  | ffmpeg => runs [] (Some 1)
  | ffmpeg_reencode => runs [] (Some 0)
  end.

(** ** The server as a transition system *)

(** A socket changes its [readyState] by itself. *)
Definition set_readyState (f : ServerWebSocket → Z) (w : World) : World :=
  {| downloadProgress := downloadProgress w;
     clients := clients w;
     readyState := f;
     sent := sent w;
     writes := writes w |}.

(** One thing that happens to the server: a clip request is handled, a
    child process of some job emits an event, a socket is opened or closed,
    or sockets change their state.  The job of an event is any job in any
    state, which covers every interleaving of the jobs there are. *)
Inductive server_step (is_url : string → bool) : World → World → Prop :=
  | step_request reqBody clock w resp w' job :
      handleDownloadClip is_url reqBody clock w = (resp, w', job) →
      server_step is_url w w'
  | step_event proc ev p w :
      server_step is_url w (deliver proc ev p w).2
  | step_open ws w :
      server_step is_url w (websocket_open ws w)
  | step_close ws w :
      server_step is_url w (websocket_close ws w)
  | step_readyState f w :
      server_step is_url w (set_readyState f w).

(** The server when it starts: both tables and both logs are empty. *)
Definition fresh_server (w : World) : Prop :=
  downloadProgress w = ∅ ∧ clients w = ∅ ∧ sent w = [] ∧ writes w = [].

(** The shape of a progress record: [downloading] from 0 to 50,
    [processing] at 50 or 60, [completed] at 100 with the file name and the
    download URL, [error] at 0; the file name and URL are there for
    [completed] only. *)
Definition well_formed_record (r : DownloadProgress) : Prop :=
  match status r with
  | downloading => 0 ≤ progress r ≤ 50 ∧ filename r = None ∧ download_url r = None
  | processing =>
      (progress r = 50 ∨ progress r = 60) ∧ filename r = None ∧ download_url r = None
  | completed =>
      progress r = 100 ∧
      ∃ id, filename r = Some (id +:+ ".mp4") ∧
            download_url r = Some ("/api/download-file/" +:+ id +:+ ".mp4")
  | error => progress r = 0 ∧ filename r = None ∧ download_url r = None
  end.

(** What holds of the server at all times. *)
Definition server_invariant (w : World) : Prop :=
  (∀ id, downloadProgress w !! id = last (writes_of id w)) ∧
  (∀ id ws, is_attached id ws w = true → truthy (query_id ws) = Some id) ∧
  (∀ ws m, m ∈ sent_to ws w →
     msg_type m = "progress" ∧
     truthy (query_id ws) = Some (msg_download_id m) ∧
     msg_data m ∈ writes_of (msg_download_id m) w) ∧
  (∀ id r, r ∈ writes_of id w → well_formed_record r).

(** ** Identifiers *)

(** The format of [Date.prototype.toISOString]: [YYYY-MM-DDTHH:mm:ss.sssZ],
    put together from its seven fields. *)
Definition iso_8601 (year month day hours minutes seconds millis : string) : string :=
  year +:+ "-" +:+ month +:+ "-" +:+ day +:+ "T" +:+
  hours +:+ ":" +:+ minutes +:+ ":" +:+ seconds +:+ "." +:+ millis +:+ "Z".

(** A field of [n] decimal digits. *)
Definition digits_field (n : nat) (s : string) : bool :=
  all_digits s && (String.length s =? n)%nat.

(** [/^[0-9a-f]*$/] *)
Fixpoint all_hex (s : string) : bool :=
  match s with
  | String c s' => has_char c "0123456789abcdef" && all_hex s'
  | EmptyString => true
  end.

(** ** Video information *)

#[global] Instance number_eq_dec : EqDecision number.
Proof. solve_decision. Defined.

(** One entry of [info.formats] as [handleGetVideoInfo] reads it, for the
    JSON of [yt-dlp]: an object whose members are strings; [None] stands
    for a member that is missing or [null]. *)
Record FormatEntry := {
  entry_format_id : option string;
  entry_vcodec : option string;
  entry_acodec : option string;
  entry_quality_label : option string;
  entry_resolution : option string;
  entry_ext : option string
}.

Record VideoFormat := {
  format_id : option string;
  quality : string;
  resolution : string;
  ext : option string
}.

(** [f.vcodec !== "none" && f.acodec !== "none"] *)
Definition has_video_and_audio (f : FormatEntry) : bool :=
  negb (bool_decide (entry_vcodec f = Some "none")) &&
  negb (bool_decide (entry_acodec f = Some "none")).

(** [x || fallback] *)
Definition or_else (x : option string) (fallback : string) : string :=
  default fallback (truthy x).

(** The object [formats.push] is called with. *)
Definition pushed (f : FormatEntry) : VideoFormat :=
  {| format_id := entry_format_id f;
     quality := or_else (entry_quality_label f) "unknown";
     resolution := or_else (entry_resolution f) "unknown";
     ext := entry_ext f |}.

(** What [qualityOrder[key]] finds: a number of the literal, a member the
    object inherits from [Object.prototype], or [undefined]. *)
Inductive Member := Own (n : Z) | Inherited | Undefined.

Definition Object_prototype : list string :=
  ["constructor"; "toString"; "toLocaleString"; "valueOf"; "hasOwnProperty";
   "isPrototypeOf"; "propertyIsEnumerable"; "__proto__";
   "__defineGetter__"; "__defineSetter__"; "__lookupGetter__"; "__lookupSetter__"].

Definition qualityOrder (key : string) : Member :=
  if String.eqb key "2160p" then Own 5
  else if String.eqb key "1440p" then Own 4
  else if String.eqb key "1080p" then Own 3
  else if String.eqb key "720p" then Own 2
  else if String.eqb key "480p" then Own 1
  else if String.eqb key "360p" then Own 0
  else if list_includes Object_prototype key then Inherited
  else Undefined.

(** [qualityOrder[q] || -1] as an operand of the subtraction: 0 and
    [undefined] are falsy and give -1; an inherited member is a function or
    an object, which the subtraction turns into [NaN]. *)
Definition quality_rank (q : string) : number :=
  match qualityOrder q with
  | Own n => if n =? 0 then Int (-1) else Int n
  | Undefined => Int (-1)
  | Inherited => NaN
  end.

(** The comparator given to [formats.sort]. *)
Definition by_quality (a b : VideoFormat) : number :=
  num_sub (quality_rank (quality b)) (quality_rank (quality a)).

(** [Array.prototype.sort(comparefn)] is a stable sort: [b] goes before an
    earlier [a] only when [comparefn(a, b) > 0], and a result of [NaN]
    counts as 0.  Written as an insertion sort, from the end of the array.
    (When [comparefn] is not a consistent comparator the language leaves
    the order to the engine.) *)
Fixpoint sort_insert {A} (comparefn : A → A → number) (x : A) (l : list A) : list A :=
  match l with
  | [] => [x]
  | y :: l' =>
      if num_gt (comparefn x y) (Int 0) then y :: sort_insert comparefn x l'
      else x :: l
  end.

Fixpoint Array_sort {A} (comparefn : A → A → number) (l : list A) : list A :=
  match l with
  | [] => []
  | x :: l' => sort_insert comparefn x (Array_sort comparefn l')
  end.

(** The member [formats] of the response of [handleGetVideoInfo], from the
    array [info.formats || []]. *)
Definition videoInfo_formats (entries : list FormatEntry) : list VideoFormat :=
  take 10 (Array_sort by_quality (map pushed (filter (λ f, has_video_and_audio f = true) entries))).

(** An entry with the given quality label, a video and an audio codec. *)
Definition sample_entry (id label : string) : FormatEntry :=
  {| entry_format_id := Some id; entry_vcodec := Some "avc1"; entry_acodec := Some "mp4a";
     entry_quality_label := Some label; entry_resolution := None; entry_ext := Some "mp4" |}.

(** * Properties *)

(** ** Time strings *)

Section TimeStrings.

Lemma eqb_code c d : Ascii.eqb c d = true → code c = code d.
Proof. intros H. apply Ascii.eqb_eq in H. by subst. Qed.

Lemma is_digit_code c : is_digit c = true → 48 ≤ code c ≤ 57.
Proof. unfold is_digit. intros H. apply andb_true_iff in H. lia. Qed.

Lemma is_digit_0_5_digit c : is_digit_0_5 c = true → is_digit c = true.
Proof.
  unfold is_digit_0_5, is_digit. intros H.
  apply andb_true_iff in H. apply andb_true_iff. lia.
Qed.

(** A digit is none of the characters the scanners branch on. *)
Lemma digit_not c d :
  is_digit c = true → (code d < 48 ∨ 57 < code d) → Ascii.eqb c d = false.
Proof.
  intros Hc Hd. destruct (Ascii.eqb c d) eqn:E; [|done].
  apply eqb_code in E. apply is_digit_code in Hc. lia.
Qed.

Lemma digit_not_white_space c : is_digit c = true → is_white_space c = false.
Proof.
  intros Hc. apply is_digit_code in Hc. unfold is_white_space.
  repeat (apply orb_false_iff; split); try apply andb_false_iff; lia.
Qed.

Lemma digit_in_10 c :
  is_digit c = true → digit_in 10 c = Some (code c - 48).
Proof.
  intros Hc. unfold digit_in. rewrite Hc.
  apply is_digit_code in Hc.
  destruct (code c - 48 <? 10) eqn:E; [done | lia].
Qed.

Lemma append_empty_r s : s +:+ EmptyString = s.
Proof.
  induction s as [|c s IH]; [done|].
  change (String c (s +:+ EmptyString) = String c s). by rewrite IH.
Qed.

Lemma take_skip_digits s : take_digits s +:+ skip_digits s = s.
Proof.
  induction s as [|c s IH]; [done|]. simpl.
  destruct (is_digit c); [|done].
  change (String c (take_digits s +:+ skip_digits s) = String c s).
  by rewrite IH.
Qed.

Lemma all_digits_take s : all_digits (take_digits s) = true.
Proof.
  induction s as [|c s IH]; [done|]. simpl.
  destruct (is_digit c) eqn:E; simpl; [by rewrite E | done].
Qed.

Lemma digits_value_nonneg ds acc :
  0 ≤ acc → Forall (λ d, 0 ≤ d) ds →
  0 ≤ fold_left (λ a d, a * 10 + d) ds acc.
Proof.
  revert acc. induction ds as [|d ds IH]; intros acc Hacc Hds; [done|].
  inversion Hds; subst. simpl. apply IH; [lia | done].
Qed.

Lemma leading_digits_all s :
  all_digits s = true →
  Forall (λ d, 0 ≤ d) (leading_digits 10 s) ∧
  (s ≠ EmptyString → leading_digits 10 s ≠ []).
Proof.
  induction s as [|c s IH]; [done|]. simpl. intros H.
  apply andb_true_iff in H as [Hc Hs].
  rewrite (digit_in_10 c Hc). split; [|done].
  constructor; [apply is_digit_code in Hc; lia | by apply IH].
Qed.

(** On a non-empty string of digits [parseInt] finds no white space, no
    sign and no [0x] prefix, and returns their decimal value. *)
Lemma parseInt_digits s :
  s ≠ EmptyString → all_digits s = true →
  ∃ n, parseInt s = Int n ∧ 0 ≤ n.
Proof.
  intros Hne Hall. destruct s as [|c s]; [done|].
  pose proof Hall as Hall'. simpl in Hall'.
  apply andb_true_iff in Hall' as [Hc Hs].
  unfold parseInt. simpl trimStart. rewrite (digit_not_white_space c Hc).
  rewrite !(digit_not c) by not_a_digit.
  assert (Hradix :
    match String c s with
    | String c0 (String x r) =>
        if Ascii.eqb c0 "0" && (Ascii.eqb x "x" || Ascii.eqb x "X")
        then (16, r) else (10, String c s)
    | _ => (10, String c s)
    end = (10, String c s)).
  { destruct s as [|x r]; [done|]. simpl in Hs.
    apply andb_true_iff in Hs as [Hx _].
    rewrite !(digit_not x) by not_a_digit.
    by rewrite andb_false_r. }
  rewrite Hradix.
  destruct (leading_digits_all (String c s) Hall) as [Hpos Hnil].
  destruct (leading_digits 10 (String c s)) as [|d ds] eqn:E.
  { by destruct Hnil. }
  eexists. split; [reflexivity|].
  rewrite Z.mul_1_l. unfold digits_value.
  apply digits_value_nonneg; [lia | done].
Qed.

(** [split] leaves a leading run of digits in the first part. *)
Lemma split_digits s :
  split ":" s =
    match split ":" (skip_digits s) with
    | h :: t => (take_digits s +:+ h) :: t
    | [] => [take_digits s]
    end.
Proof.
  induction s as [|c s IH]; [done|].
  simpl. destruct (is_digit c) eqn:Hc.
  - rewrite (digit_not c ":") by not_a_digit.
    rewrite IH. by destruct (split ":" (skip_digits s)).
  - simpl. destruct (Ascii.eqb c ":"); [done|].
    by destruct (split ":" s).
Qed.

Lemma split_two_digits a b :
  is_digit a = true → is_digit b = true →
  split ":" (String a (String b EmptyString)) = [String a (String b EmptyString)].
Proof.
  intros Ha Hb. simpl.
  by rewrite (digit_not a ":"), (digit_not b ":") by not_a_digit.
Qed.

Lemma parseInt_two_digits a b :
  is_digit a = true → is_digit b = true →
  ∃ n, parseInt (String a (String b EmptyString)) = Int n ∧ 0 ≤ n.
Proof.
  intros Ha Hb. apply parseInt_digits; [done|]. simpl. by rewrite Ha, Hb.
Qed.

End TimeStrings.

(** C9. Parsing "1:05:30" gives 3930 seconds and formatting 3930 seconds
    gives "01:05:30"; parsing "2:15" gives 135 seconds and formatting 135
    seconds gives "02:15". *)
Theorem time_round_trip_examples :
  timeToSeconds "1:05:30" = Ok (Int 3930) ∧
  formatSeconds (Int 3930) = "01:05:30" ∧
  timeToSeconds "2:15" = Ok (Int 135) ∧
  formatSeconds (Int 135) = "02:15".
Proof. repeat split; vm_compute; reflexivity. Qed.



(** ** The clip request handler *)

Section HandlerProperties.

Variable is_url : string → bool.

Lemma string_member_check k check fields s :
  string_member k check fields = Some s → check s = true.
Proof.
  unfold string_member. intros H.
  destruct (get_field k fields) as [[]|]; try done.
  destruct (check _) eqn:E; by simplify_eq.
Qed.

(** What the schema accepts: a well-formed URL and two times that match
    the time pattern. *)
Lemma safeParse_accepts b req :
  ClipRequestSchema_safeParse is_url b = inl req →
  is_url (url req) = true ∧
  time_pattern (start_time req) = true ∧
  time_pattern (end_time req) = true.
Proof.
  unfold ClipRequestSchema_safeParse. intros H.
  destruct b; try done.
  destruct (string_member "url" _ _) eqn:Hu; [|by repeat case_match].
  destruct (string_member "start_time" _ _) eqn:Hs; [|by repeat case_match].
  destruct (string_member "end_time" _ _) eqn:He; [|by repeat case_match].
  simplify_eq. simpl. repeat split; eauto using string_member_check.
Qed.

(** The job the handler starts is at its first [await], and it is the only
    thing the handler adds to the state of the server. *)
Lemma queued_job_started reqBody clock w resp w' job :
  handleDownloadClip is_url reqBody clock w = (resp, w', Some job) →
  started job = true ∧
  job_id job = generateId clock ∧
  w' = downloadProgress_set (generateId clock) initial_record w.
Proof.
  unfold handleDownloadClip. intros H.
  repeat case_match; by simplify_eq.
Qed.

End HandlerProperties.





(** ** The fan-out *)

Section FanOut.

Implicit Types (w : World) (ws : ServerWebSocket) (m : ProgressMessage).

(** The loop of [broadcastProgress] only appends to the log of sends: one
    message for each open socket of the list, in order. *)
Lemma broadcast_loop m (l : list ServerWebSocket) w :
  let w' := foldl (send_if_open m) w l in
  downloadProgress w' = downloadProgress w ∧
  clients w' = clients w ∧
  readyState w' = readyState w ∧
  writes w' = writes w ∧
  sent w' =
    (sent w ++ map (λ ws, (ws, m))
                   (filter (λ ws, readyState w ws = WebSocket_OPEN) l)).
Proof.
  revert w. induction l as [|ws l IH]; intros w; simpl.
  { by rewrite app_nil_r. }
  destruct (IH (send_if_open m w ws)) as (Hd & Hc & Hr & Hw & Hs).
  assert (Hready : readyState (send_if_open m w ws) = readyState w).
  { unfold send_if_open. by destruct (_ =? _). }
  rewrite Hd, Hc, Hr, Hw, Hs, Hready.
  unfold send_if_open. rewrite filter_cons.
  destruct (readyState w ws =? WebSocket_OPEN) eqn:E.
  - apply Z.eqb_eq in E. rewrite decide_True by done. simpl.
    by rewrite <- app_assoc.
  - apply Z.eqb_neq in E. by rewrite decide_False by done.
Qed.

Lemma broadcast_frame X w :
  downloadProgress (broadcastProgress X w) = downloadProgress w ∧
  clients (broadcastProgress X w) = clients w ∧
  readyState (broadcastProgress X w) = readyState w ∧
  writes (broadcastProgress X w) = writes w.
Proof.
  unfold broadcastProgress.
  destruct (downloadProgress w !! X) as [r|]; [|done].
  destruct (clients w !! X) as [S|]; [|done].
  match goal with
  | |- context [foldl _ w ?l] =>
      destruct (broadcast_loop (progress_message X r) l w) as (?&?&?&?&?)
  end.
  done.
Qed.

(** Among the messages for distinct sockets, [ws] finds its own once. *)
Lemma own_messages m ws (l : list ServerWebSocket) :
  NoDup l →
  omap (λ e : ServerWebSocket * ProgressMessage,
          if decide (e.1 = ws) then Some e.2 else None)
       (map (λ ws', (ws', m)) l)
  = if bool_decide (ws ∈ l) then [m] else [].
Proof.
  set (f := λ e : ServerWebSocket * ProgressMessage,
              if decide (e.1 = ws) then Some e.2 else None).
  induction 1 as [|ws' l Hnotin Hnodup IH]; [done|].
  change (omap f (map (λ ws', (ws', m)) (ws' :: l)))
    with (match f (ws', m) with
          | Some y => y :: omap f (map (λ ws', (ws', m)) l)
          | None => omap f (map (λ ws', (ws', m)) l)
          end).
  rewrite IH. unfold f. cbn [fst snd].
  destruct (decide (ws' = ws)) as [->|Hne].
  - rewrite (bool_decide_eq_true_2 (ws ∈ ws :: l)) by left.
    by rewrite (bool_decide_eq_false_2 (ws ∈ l)).
  - by rewrite (bool_decide_ext (ws ∈ ws' :: l) (ws ∈ l))
      by (rewrite elem_of_cons; naive_solver).
Qed.

(** What one call of [broadcastProgress] sends to one socket. *)
Lemma broadcast_sent_to X w ws :
  sent_to ws (broadcastProgress X w) =
    (sent_to ws w ++
     match downloadProgress w !! X with
     | Some r =>
         if is_attached X ws w && (readyState w ws =? WebSocket_OPEN)
         then [progress_message X r] else []
     | None => []
     end).
Proof.
  unfold broadcastProgress, is_attached.
  destruct (downloadProgress w !! X) as [r|]; [|by rewrite app_nil_r].
  destruct (clients w !! X) as [S|]; [|by rewrite app_nil_r].
  destruct (broadcast_loop (progress_message X r) (elements S) w)
    as (_ & _ & _ & _ & Hsent).
  unfold sent_to. rewrite Hsent, omap_app. f_equal.
  rewrite own_messages by apply NoDup_filter, NoDup_elements.
  destruct (readyState w ws =? WebSocket_OPEN) eqn:E.
  - apply Z.eqb_eq in E. rewrite andb_true_r.
    rewrite (bool_decide_ext _ (ws ∈ S)); [done|].
    rewrite list_elem_of_filter, elem_of_elements. naive_solver.
  - apply Z.eqb_neq in E. rewrite andb_false_r.
    rewrite bool_decide_eq_false_2; [done|].
    rewrite list_elem_of_filter. naive_solver.
Qed.

Lemma attached_after_open X ws w :
  truthy (query_id ws) = Some X → is_attached X ws (websocket_open ws w) = true.
Proof.
  intros Hq. unfold websocket_open, is_attached. rewrite Hq. simpl.
  destruct (clients w !! X) as [S|] eqn:E.
  - rewrite lookup_alter_eq, E. simpl. apply bool_decide_eq_true_2. set_solver.
  - rewrite lookup_alter_eq, lookup_insert_eq. simpl.
    apply bool_decide_eq_true_2. set_solver.
Qed.

Lemma detached_after_close X ws w :
  truthy (query_id ws) = Some X → is_attached X ws (websocket_close ws w) = false.
Proof.
  intros Hq. unfold websocket_close, is_attached. rewrite Hq.
  destruct (clients w !! X) as [S|] eqn:E; [|by rewrite E].
  simpl. rewrite lookup_alter_eq, E. simpl.
  apply bool_decide_eq_false_2. set_solver.
Qed.

End FanOut.



(** ** The background pipeline *)

Section PipelineLemmas.

Implicit Types (w : World) (p : Pipeline) (rs : list DownloadProgress).

Lemma published_refl id w : published id [] w w.
Proof.
  unfold published. simpl. rewrite app_nil_r. repeat split.
  intros ws. destruct (_ && _); by rewrite app_nil_r.
Qed.

Lemma is_attached_clients id ws w w' :
  clients w' = clients w → is_attached id ws w' = is_attached id ws w.
Proof. unfold is_attached. by intros ->. Qed.

Lemma published_trans id rs1 rs2 w w1 w2 :
  published id rs1 w w1 → published id rs2 w1 w2 →
  published id (rs1 ++ rs2) w w2.
Proof.
  intros (Hw1 & Hc1 & Hr1 & Hd1 & Hs1) (Hw2 & Hc2 & Hr2 & Hd2 & Hs2).
  unfold published.
  rewrite Hw2, Hw1, Hc2, Hc1, Hr2, Hr1, Hd2, Hd1, map_app, foldl_app, app_assoc.
  repeat split. intros ws.
  rewrite Hs2, Hs1, (is_attached_clients id ws w w1 Hc1), Hr1, map_app.
  destruct (_ && _); by rewrite <- app_assoc.
Qed.

(** One [downloadProgress.set] followed by [broadcastProgress]. *)
Lemma published_one id r w :
  published id [r] w (broadcastProgress id (downloadProgress_set id r w)).
Proof.
  unfold published.
  destruct (broadcast_frame id (downloadProgress_set id r w)) as (Hd & Hc & Hr & Hw).
  rewrite Hd, Hc, Hr, Hw. repeat split.
  intros ws. rewrite broadcast_sent_to. simpl.
  by rewrite lookup_insert_eq.
Qed.

Lemma feed_app proc evs1 evs2 s :
  feed proc (evs1 ++ evs2) s = feed proc evs2 (feed proc evs1 s).
Proof. apply foldl_app. Qed.

(** The chunks of [stderr] of [yt-dlp] leave the job as it is and publish
    one record for each reported percentage. *)
Lemma feed_yt_stderr p chunks w :
  uncaught p = None →
  ∃ w', feed yt_dlp (map stderr_data chunks) (p, w) = (p, w') ∧
        published (job_id p) (map download_record (reported chunks)) w w'.
Proof.
  intros Hu. revert w. induction chunks as [|data chunks IH]; intros w.
  { exists w. split; [done | apply published_refl]. }
  change (feed yt_dlp (map stderr_data (data :: chunks)) (p, w))
    with (feed yt_dlp (map stderr_data chunks)
            (deliver yt_dlp (stderr_data data) p w)).
  assert (Hstep : deliver yt_dlp (stderr_data data) p w
                  = (p, on_stderr_data (job_id p) data w)).
  { unfold deliver. by rewrite Hu. }
  rewrite Hstep.
  destruct (IH (on_stderr_data (job_id p) data w)) as (w' & Hfeed & Hpub).
  exists w'. split; [exact Hfeed|].
  unfold reported in *. unfold on_stderr_data in Hpub. simpl.
  destruct (match_percent data) as [m|]; [|exact Hpub].
  simpl. apply (published_trans _ [_] _ _ _ _ (published_one _ _ _) Hpub).
Qed.

(** The two [ffmpeg]s have no listener on [stderr]. *)
Lemma feed_ffmpeg_stderr proc p chunks w :
  proc ≠ yt_dlp →
  feed proc (map stderr_data chunks) (p, w) = (p, w).
Proof.
  intros Hproc. induction chunks as [|data chunks IH]; [done|].
  change (feed proc (map stderr_data (data :: chunks)) (p, w))
    with (feed proc (map stderr_data chunks)
            (deliver proc (stderr_data data) p w)).
  assert (Hstep : deliver proc (stderr_data data) p w = (p, w)).
  { unfold deliver.
    destruct (uncaught p); [done|].
    destruct proc; [done| |].
    - by destruct (cut p).
    - by destruct (reencodeProc p). }
  by rewrite Hstep.
Qed.

End PipelineLemmas.

Section PipelineRuns.

Implicit Types (w : World) (p : Pipeline) (rs : list DownloadProgress).

Lemma published_snoc id rs rs' r w w1 :
  published id rs w w1 → rs' = rs ++ [r] →
  published id rs' w (broadcastProgress id (downloadProgress_set id r w1)).
Proof.
  intros H ->. eapply published_trans; [exact H | apply published_one].
Qed.

Lemma feed_one proc ev p w : feed proc [ev] (p, w) = deliver proc ev p w.
Proof. done. Qed.

Lemma feed_two proc ev1 ev2 p w :
  feed proc [ev1; ev2] (p, w) =
    deliver proc ev2 (deliver proc ev1 p w).1 (deliver proc ev1 p w).2.
Proof. done. Qed.

(** A run of a process that has no listener on [stderr]: only its [close]
    is handled. *)
Lemma feed_ffmpeg_runs proc chunks code p w :
  proc ≠ yt_dlp →
  feed proc (events_of (runs chunks code)) (p, w) = deliver proc (close code) p w.
Proof.
  intros Hproc. unfold events_of.
  by rewrite feed_app, feed_ffmpeg_stderr, feed_one.
Qed.

Lemma negative_code_not_0 (n : positive) : Some (Z.neg n) ≠ Some 0.
Proof. done. Qed.

(** The re-encoding [ffmpeg] of a job whose cut is already settled
    publishes nothing, whatever it does. *)
Lemma reencode_after_settled re p w o :
  cut p = Some o → o ≠ Pending →
  (feed ffmpeg_reencode (events_of re) (p, w)).2 = w.
Proof.
  intros Hcut Ho. destruct p as [id u s e dl ct rp un]. simpl in Hcut. subst ct.
  destruct re as [chunks code|err n].
  - rewrite feed_ffmpeg_runs by done. unfold deliver, settle_cut. simpl.
    destruct un; [done|]. destruct rp; [|done].
    destruct (decide (code = Some 0)); by destruct o.
  - unfold events_of. rewrite feed_two. unfold deliver. simpl.
    destruct un; [done|]. by destruct rp.
Qed.

(** The cut stage of a job that has just called [runFFmpeg]. *)
Lemma cut_stage_published tools p w :
  uncaught p = None → cut p = Some Pending → reencodeProc p = false →
  let s2 := feed ffmpeg (events_of (tools ffmpeg)) (p, w) in
  let s3 := if reencodeProc s2.1
            then feed ffmpeg_reencode (events_of (tools ffmpeg_reencode)) s2
            else s2 in
  published (job_id p)
    (stage_B_records (job_id p) (tools ffmpeg) (tools ffmpeg_reencode)) w s3.2.
Proof.
  destruct p as [id u s e dl ct rp un]. simpl. intros -> -> ->.
  unfold stage_B_records.
  destruct (tools ffmpeg) as [chunks code|err n].
  - rewrite feed_ffmpeg_runs by done. run_step.
    destruct (decide (code = Some 0)) as [_|_]; run_step.
    { apply (published_snoc _ [] _ _ _ _ (published_refl _ _)). done. }
    destruct (tools ffmpeg_reencode) as [chunks2 code2|err2 n2].
    + rewrite feed_ffmpeg_runs by done. run_step.
      destruct (decide (code2 = Some 0)) as [_|_]; run_step;
        apply (published_snoc _ [] _ _ _ _ (published_refl _ _)); done.
    + run_step. apply published_refl.
  - run_step. rewrite decide_False by apply negative_code_not_0. run_step.
    erewrite reencode_after_settled; [|done..].
    apply (published_snoc _ [] _ _ _ _ (published_refl _ _)). done.
Qed.

(** The download stage of a job that has just been started. *)
Lemma download_stage_published yt p w :
  started p = true →
  ∃ p1 w1,
    feed yt_dlp (events_of yt) (p, w) = (p1, w1) ∧
    published (job_id p) (stage_A_records yt) w w1 ∧
    job_id p1 = job_id p ∧ uncaught p1 = None ∧ reencodeProc p1 = false ∧
    cut p1 = (if download_ok yt then Some Pending else None).
Proof.
  intros Hst.
  assert (Hu : uncaught p = None).
  { unfold started in Hst. by repeat case_match. }
  destruct p as [id u s e dl ct rp un]. simpl in Hu. subst un.
  destruct dl; try done. destruct ct; try done. destruct rp; try done.
  clear Hst. unfold stage_A_records, download_ok.
  destruct yt as [chunks code|err n].
  - unfold events_of. rewrite feed_app.
    edestruct (feed_yt_stderr) as (w1 & -> & Hpub1); [reflexivity|].
    simpl in Hpub1. run_step.
    destruct (decide (code = Some 0)) as [Hcode|Hcode]; run_step.
    + rewrite bool_decide_eq_true_2 by done.
      do 2 eexists. split; [reflexivity|]. split; [|done].
      eapply published_snoc;
        [eapply published_snoc; [exact Hpub1 | reflexivity]
        | by rewrite <- app_assoc].
    + rewrite bool_decide_eq_false_2 by done.
      do 2 eexists. split; [reflexivity|]. split; [|done].
      eapply published_snoc; [exact Hpub1 | done].
  - run_step. rewrite decide_False by apply negative_code_not_0. run_step.
    do 2 eexists. split; [reflexivity|]. split; [|done].
    apply (published_snoc _ [] _ _ _ _ (published_refl _ _)). done.
Qed.

(** Every record of a job is written and published in the order of
    [job_records], and nothing else is written or sent. *)
Lemma run_published tools p w :
  started p = true →
  published (job_id p) (job_records (job_id p) tools) w (run_pipeline tools p w).2.
Proof.
  intros Hst.
  destruct (download_stage_published (tools yt_dlp) p w Hst)
    as (p1 & w1 & Hfeed & Hpub & Hid & Hu & Hre & Hcut).
  unfold run_pipeline, job_records. rewrite Hfeed. cbn [fst snd]. rewrite Hcut.
  destruct (download_ok (tools yt_dlp)).
  - eapply published_trans; [exact Hpub|]. rewrite <- Hid.
    by apply (cut_stage_published tools p1 w1).
  - cbn [fst snd]. rewrite Hre, app_nil_r. exact Hpub.
Qed.

End PipelineRuns.

Section Observations.

Implicit Types (w : World) (p : Pipeline) (rs : list DownloadProgress).

Lemma writes_of_app id (l1 l2 : list (string * DownloadProgress)) :
  omap (λ e : string * DownloadProgress, if decide (e.1 = id) then Some e.2 else None)
       (l1 ++ l2)
  = omap (λ e : string * DownloadProgress, if decide (e.1 = id) then Some e.2 else None) l1
    ++ omap (λ e : string * DownloadProgress, if decide (e.1 = id) then Some e.2 else None) l2.
Proof. apply omap_app. Qed.

Lemma writes_of_own id rs :
  omap (λ e : string * DownloadProgress, if decide (e.1 = id) then Some e.2 else None)
       (map (pair id) rs) = rs.
Proof.
  induction rs as [|r rs IH]; [done|].
  cbn [map omap list_omap fst snd]. rewrite decide_True by done.
  f_equal. exact IH.
Qed.

Lemma store_after_writes id rs (m : gmap string DownloadProgress) :
  foldl (λ m r, <[id := r]> m) m rs !! id =
    match last rs with
    | Some r => Some r
    | None => m !! id
    end.
Proof.
  revert m. induction rs as [|r rs IH]; intros m; [done|].
  cbn [foldl]. rewrite IH. destruct rs as [|r' rs].
  - simpl. apply lookup_insert_eq.
  - change (last (r :: r' :: rs)) with (last (r' :: rs)).
    destruct (last (r' :: rs)) eqn:E; [done | by apply last_None in E].
Qed.

(** What [published] says of the three things one can observe: the
    history of the record, the record in the store, and the messages of a
    socket that is attached and open. *)
Lemma published_observed id rs w w' :
  published id rs w w' →
  writes_of id w' = writes_of id w ++ rs ∧
  downloadProgress w' !! id =
    match last rs with
    | Some r => Some r
    | None => downloadProgress w !! id
    end ∧
  ∀ ws, is_attached id ws w = true → readyState w ws = WebSocket_OPEN →
        sent_to ws w' = sent_to ws w ++ map (progress_message id) rs.
Proof.
  intros (Hw & _ & _ & Hd & Hs). repeat split.
  - unfold writes_of. by rewrite Hw, writes_of_app, writes_of_own.
  - rewrite Hd. apply store_after_writes.
  - intros ws Ha Ho. rewrite Hs, Ha.
    by rewrite (proj2 (Z.eqb_eq _ _) Ho).
Qed.

End Observations.



Section RecordOrder.

Implicit Types (rs : list DownloadProgress).

Lemma terminal_last_app rs tail :
  Forall (λ r, terminal (status r) = false) rs →
  terminal_last tail → terminal_last (rs ++ tail).
Proof.
  intros Hrs Htail. induction Hrs as [|x rs Hx _ IH]; [done|].
  intros [|b before] r after Heq Hterm; simplify_eq/=.
  - congruence.
  - by eapply IH.
Qed.

Lemma download_records_not_terminal qs :
  Forall (λ r, terminal (status r) = false) (map download_record qs).
Proof. induction qs; by constructor. Qed.

Lemma job_records_shape id tools :
  ∃ qs tail,
    job_records id tools = map download_record qs ++ tail ∧
    qs = reported_by (tools yt_dlp) ∧
    (tail = [record processing 50 "Processing video...";
             record processing 60 "Cutting video...";
             completed_record id] ∨
     (∃ msg, tail = [record processing 50 "Processing video...";
                     record processing 60 "Cutting video...";
                     record error 0 msg]) ∨
     tail = [record processing 50 "Processing video...";
             record processing 60 "Cutting video..."] ∨
     (∃ msg, tail = [record error 0 msg])).
Proof.
  unfold job_records, stage_A_records, stage_B_records, download_ok, reported_by.
  destruct (tools yt_dlp) as [stderr code|err n].
  - exists (reported stderr). eexists. split; [by rewrite <- app_assoc|].
    split; [done|].
    destruct (decide (code = Some 0)).
    + rewrite bool_decide_eq_true_2 by done.
      destruct (tools ffmpeg) as [? c1|]; [|simpl; eauto].
      destruct (decide (c1 = Some 0)); [simpl; eauto|].
      destruct (tools ffmpeg_reencode) as [? c2|]; [|simpl; eauto].
      destruct (decide (c2 = Some 0)); simpl; eauto.
    + rewrite bool_decide_eq_false_2 by done. simpl. eauto.
  - exists [], [record error 0 err]. simpl. eauto 10.
Qed.

Lemma job_records_terminal_last id tools : terminal_last (job_records id tools).
Proof.
  destruct (job_records_shape id tools) as (qs & tail & -> & _ & Htail).
  apply terminal_last_app; [apply download_records_not_terminal|].
  intros before r after Heq Hterm.
  destruct Htail as [->|[[msg ->]|[->|[msg ->]]]];
    repeat (destruct before as [|? before]; simplify_eq/=; try done).
Qed.

End RecordOrder.

(** C4. Once a job has written a record with status [completed] or [error],
    it writes nothing more: in the records a job writes, a terminal one is
    the last, and it is the record the store holds when the job is over. *)
Theorem no_write_after_terminal (tools : Proc → ProcRun) (p : Pipeline) (w : World) :
  started p = true →
  let w' := (run_pipeline tools p w).2 in
  ∃ rs,
    writes_of (job_id p) w' = writes_of (job_id p) w ++ rs ∧
    ∀ before r after,
      rs = before ++ r :: after → terminal (status r) = true →
      after = [] ∧ downloadProgress w' !! job_id p = Some r.
Proof.
  intros Hst w'. exists (job_records (job_id p) tools).
  destruct (published_observed _ _ _ _ (run_published tools p w Hst))
    as (Hw & Hd & _).
  split; [exact Hw|].
  intros before r after Heq Hterm.
  assert (after = []) as -> by by eapply job_records_terminal_last.
  split; [done|]. unfold w'. by rewrite Hd, Heq, last_snoc.
Qed.

Lemma no_write_after_terminal_witness :
  ∃ rs,
    writes_of "job" (run_pipeline download_fails sample_job queued_world).2
      = writes_of "job" queued_world ++ rs ∧
    ∀ before r after,
      rs = before ++ r :: after → terminal (status r) = true →
      after = [] ∧
      downloadProgress (run_pipeline download_fails sample_job queued_world).2 !! "job"
        = Some r.
Proof.
  apply (no_write_after_terminal download_fails sample_job queued_world).
  reflexivity.
Defined.

Section ProgressValues.

Lemma digit_in_nonneg radix c d : digit_in radix c = Some d → 0 ≤ d.
Proof.
  unfold digit_in. intros H.
  destruct (is_digit c) eqn:Hd.
  { apply is_digit_code in Hd.
    destruct (code c - 48 <? radix); simplify_eq. lia. }
  destruct ((97 <=? code c) && (code c <=? 122)) eqn:Hl.
  { apply andb_true_iff in Hl.
    destruct (code c - 87 <? radix); simplify_eq. lia. }
  destruct ((65 <=? code c) && (code c <=? 90)) eqn:Hu.
  { apply andb_true_iff in Hu.
    destruct (code c - 55 <? radix); simplify_eq. lia. }
  destruct (36 <? radix); simplify_eq. lia.
Qed.

Lemma leading_digits_nonneg s : Forall (λ d, 0 ≤ d) (leading_digits 10 s).
Proof.
  induction s as [|c s IH]; [constructor|]. simpl.
  destruct (digit_in 10 c) eqn:E; constructor; eauto using digit_in_nonneg.
Qed.

Lemma parseFloat_nonneg m : (0 <= parseFloat m)%Q.
Proof.
  unfold parseFloat, Qle. simpl. rewrite Z.mul_1_r.
  apply digits_value_nonneg; [lia | apply leading_digits_nonneg].
Qed.

Lemma reported_nonneg stderr : Forall (λ q, (0 <= q)%Q) (reported stderr).
Proof.
  unfold reported. induction (omap match_percent stderr); constructor;
    [apply parseFloat_nonneg | done].
Qed.

Lemma half_floor_nonneg q : (0 <= q)%Q → 0 ≤ Qfloor (q * (1 # 2)).
Proof.
  intros Hq. rewrite <- (Qfloor_Z 0). apply Qfloor_resp_le.
  by apply Qmult_le_0_compat.
Qed.

Lemma half_floor_mono q q' :
  (q <= q')%Q → Z.min (Qfloor (q * (1 # 2))) 50 ≤ Z.min (Qfloor (q' * (1 # 2))) 50.
Proof.
  intros Hq. apply Z.min_le_compat_r, Qfloor_resp_le.
  by apply Qmult_le_compat_r.
Qed.

(** The progress of the record of a reported percentage. *)
Lemma download_progress_bounds q :
  (0 <= q)%Q → 0 ≤ progress (download_record q) ≤ 50.
Proof.
  intros Hq.
  change (progress (download_record q)) with (Z.min (Qfloor (q * (1 # 2))) 50).
  pose proof (half_floor_nonneg q Hq). lia.
Qed.

Lemma download_progress_sorted qs :
  StronglySorted Qle qs →
  StronglySorted Z.le (map progress (map download_record qs)).
Proof.
  induction 1 as [|q qs _ IH Hall]; [constructor|].
  simpl. constructor; [exact IH|].
  rewrite Forall_forall in Hall. apply Forall_forall.
  intros x Hx. apply list_elem_of_In, in_map_iff in Hx as (r & <- & Hr).
  apply in_map_iff in Hr as (q' & <- & Hq'). simpl.
  apply half_floor_mono, Hall. by apply list_elem_of_In.
Qed.

Lemma download_records_kept qs :
  filter (λ r, status r ≠ error) (map download_record qs) = map download_record qs.
Proof.
  induction qs as [|q qs IH]; [done|]. simpl.
  rewrite filter_cons, decide_True by done. by rewrite IH.
Qed.

End ProgressValues.




Section Failures.

Lemma last_map_Some {A B} (f : A → B) (l : list A) (x : A) :
  last l = Some x → last (map f l) = Some (f x).
Proof.
  induction l as [|a [|b l] IH]; [done|by intros [= ->]|].
  intros H. apply IH in H. exact H.
Qed.

Lemma caught_failure_last id tools msg :
  caught_failure tools = Some msg →
  last (job_records id tools) = Some (record error 0 msg).
Proof.
  unfold caught_failure, job_records, stage_A_records, stage_B_records, download_ok.
  destruct (tools yt_dlp) as [stderr code|err n]; [|by intros [= ->]].
  destruct (decide (code = Some 0)).
  - rewrite bool_decide_eq_true_2 by done.
    destruct (tools ffmpeg) as [? c1|err n].
    + destruct (decide (c1 = Some 0)); [done|].
      destruct (tools ffmpeg_reencode) as [? c2|]; [|done].
      destruct (decide (c2 = Some 0)); [done|]. intros [= <-].
      apply last_snoc.
    + intros [= <-]. apply last_snoc.
  - rewrite bool_decide_eq_false_2 by done. intros [= <-].
    rewrite app_nil_r. apply last_snoc.
Qed.

(** Every failure that rejects one of the two awaited promises ends in the
    [catch] block: the last record written, the record in the store and the
    last message of every attached, open socket carry [error], 0 and the
    message of the failure.  The response to the caller was given before the
    tools ran. *)
Lemma caught_failure_recorded tools p w msg :
  started p = true → caught_failure tools = Some msg →
  let w' := (run_pipeline tools p w).2 in
  last (writes_of (job_id p) w') = Some (record error 0 msg) ∧
  downloadProgress w' !! job_id p = Some (record error 0 msg) ∧
  ∀ ws, is_attached (job_id p) ws w = true → readyState w ws = WebSocket_OPEN →
        last (sent_to ws w') = Some (progress_message (job_id p) (record error 0 msg)).
Proof.
  intros Hst Hfail w'.
  destruct (published_observed _ _ _ _ (run_published tools p w Hst))
    as (Hw & Hd & Hs).
  pose proof (caught_failure_last (job_id p) tools msg Hfail) as Hlast.
  unfold w'. rewrite Hw, Hd, Hlast, last_app, Hlast. repeat split.
  intros ws Ha Ho.
  by rewrite (Hs ws Ha Ho), last_app, (last_map_Some _ _ _ Hlast).
Qed.

End Failures.

(** C6, at the input where the code departs from it: the download
    succeeds, the stream copy exits with 1 and the re-encoding [ffmpeg]
    cannot be spawned.  Its [error] event has no listener, the promise of
    [runFFmpeg] stays pending, the [catch] block never runs: no record with
    status [error] is written and the store keeps the record of the cut
    stage. *)
Theorem retry_spawn_failure_unrecorded :
  let final := run_pipeline retry_not_spawned sample_job queued_world in
  uncaught final.1 = Some "spawn ffmpeg EAGAIN" ∧
  cut final.1 = Some Pending ∧
  downloadProgress final.2 !! "job" = Some (record processing 60 "Cutting video...") ∧
  map status (writes_of "job" final.2) = [downloading; downloading; processing; processing].
Proof. vm_compute. repeat split; reflexivity. Qed.

(** ** Subtitles as plain text *)

Section Tags.

Lemma has_gt_strip b s : has_gt (strip_tags_from b s) = true → has_gt s = true.
Proof.
  revert b. induction s as [|c s IH]; intros b; [done|]. simpl.
  destruct b.
  - intros H. apply IH in H. rewrite H. apply orb_true_r.
  - destruct (Ascii.eqb c "<" && opens_tag s) eqn:E.
    + intros H. apply IH in H. rewrite H. apply orb_true_r.
    + simpl. intros H. apply orb_true_iff in H as [H|H].
      * by rewrite H.
      * apply IH in H. rewrite H. apply orb_true_r.
Qed.

Lemma opens_tag_strip s :
  opens_tag s = false → opens_tag (strip_tags_from false s) = false.
Proof.
  destruct s as [|c s]; [done|].
  unfold opens_tag at 1. intros H.
  destruct (strip_tags_from false (String c s)) as [|c' s'] eqn:E; [done|].
  unfold opens_tag. apply andb_false_iff.
  apply andb_false_iff in H as [H|H].
  - left. apply negb_false_iff, Ascii.eqb_eq in H. subst c.
    simpl in E. by simplify_eq.
  - right. destruct (has_gt (String c' s')) eqn:Hgt; [|done].
    rewrite <- E in Hgt. apply has_gt_strip in Hgt. congruence.
Qed.

(** What [strip_tags] returns has no tag left. *)
Lemma strip_tags_from_clean b s : has_tag (strip_tags_from b s) = false.
Proof.
  revert b. induction s as [|c s IH]; intros b; [done|]. simpl.
  destruct b; [apply IH|].
  destruct (Ascii.eqb c "<" && opens_tag s) eqn:E; [apply IH|].
  simpl. rewrite IH, orb_false_r.
  apply andb_false_iff in E as [E|E]; [by rewrite E|].
  rewrite (opens_tag_strip s E). apply andb_false_r.
Qed.

Lemma strip_tags_clean s : has_tag (strip_tags s) = false.
Proof. apply strip_tags_from_clean. Qed.

End Tags.

Section FirstOccurrences.

Implicit Types (l acc : list string) (x y : string).

Lemma list_includes_elem_of acc x : list_includes acc x = true ↔ x ∈ acc.
Proof.
  unfold list_includes. rewrite existsb_exists. split.
  - intros (y & Hy & Heq). apply String.eqb_eq in Heq. subst.
    by apply list_elem_of_In.
  - intros H. exists x. split; [by apply list_elem_of_In | apply String.eqb_refl].
Qed.

Lemma first_occurrences_snoc l x :
  first_occurrences (l ++ [x]) =
    if list_includes (first_occurrences l) x
    then first_occurrences l else first_occurrences l ++ [x].
Proof. unfold first_occurrences. by rewrite foldl_app. Qed.

Lemma first_occurrences_elem_of l x : x ∈ first_occurrences l ↔ x ∈ l.
Proof.
  induction l as [|z l IH] using rev_ind; [done|].
  rewrite first_occurrences_snoc.
  destruct (list_includes (first_occurrences l) z) eqn:E.
  - apply list_includes_elem_of in E. rewrite elem_of_app, list_elem_of_singleton.
    split; [rewrite IH; auto|]. intros [H| ->]; [by apply IH | done].
  - rewrite !elem_of_app, IH. done.
Qed.

Lemma first_occurrences_NoDup l : NoDup (first_occurrences l).
Proof.
  induction l as [|z l IH] using rev_ind; [constructor|].
  rewrite first_occurrences_snoc.
  destruct (list_includes (first_occurrences l) z) eqn:E; [done|].
  apply NoDup_app. split; [done|]. split; [|apply NoDup_singleton].
  intros y Hy Hz. apply list_elem_of_singleton in Hz. subst y.
  apply list_includes_elem_of in Hy. congruence.
Qed.

(** When [x] comes before [y] in [first_occurrences l], the first [x] of
    [l] comes before every [y] of [l]. *)
Lemma first_occurrences_order l before x after y :
  first_occurrences l = before ++ x :: after → y ∈ after →
  ∃ l1 l2, l = l1 ++ x :: l2 ∧ (x ∉ l1) ∧ (y ∉ l1).
Proof.
  revert before after. induction l as [|z l IH] using rev_ind;
    intros before after Heq Hy.
  { by destruct before. }
  rewrite first_occurrences_snoc in Heq.
  destruct (list_includes (first_occurrences l) z) eqn:E.
  - destruct (IH before after Heq Hy) as (l1 & l2 & -> & Hx1 & Hy1).
    exists l1, (l2 ++ [z]). by rewrite <- app_assoc.
  - assert (Hne : after ≠ []) by (intros ->; by apply not_elem_of_nil in Hy).
    destruct (exists_last Hne) as (after' & a & ->).
    rewrite app_comm_cons, app_assoc in Heq.
    apply app_inj_tail in Heq as [Heq <-].
    apply elem_of_app in Hy as [Hy|Hy].
    + destruct (IH before after' Heq Hy) as (l1 & l2 & -> & Hx1 & Hy1).
      exists l1, (l2 ++ [z]). by rewrite <- app_assoc.
    + apply list_elem_of_singleton in Hy. subst y.
      assert (Hx : x ∈ l).
      { apply first_occurrences_elem_of. rewrite Heq.
        apply elem_of_app. right. left. }
      assert (Hz : z ∉ l).
      { intros Hz. apply first_occurrences_elem_of, list_includes_elem_of in Hz.
        congruence. }
      apply list_elem_of_split_l in Hx as (l1 & l2 & -> & Hx1).
      exists l1, (l2 ++ [z]). rewrite <- app_assoc. split; [done|].
      split; [done|]. intros Hz1. apply Hz, elem_of_app. by left.
Qed.

End FirstOccurrences.

Section SubtitleLoop.

(** One turn of the loop either leaves [textLines] as it is, or it has a
    text line in hand and records its text unless it is already there. *)
Lemma subtitle_step_cases textLines skipNext line :
  (∃ skip', subtitle_step (textLines, skipNext) line = (textLines, skip')) ∨
  (is_text_line (trim line) ∧
   ∃ skip', subtitle_step (textLines, skipNext) line =
              (if list_includes textLines (strip_tags (trim line))
               then textLines else textLines ++ [strip_tags (trim line)], skip')).
Proof.
  unfold subtitle_step.
  destruct (is_empty (trim line)); [eauto|].
  destruct (is_number_line (trim line)) eqn:Hnum; [eauto|].
  destruct (includes "-->" (trim line)) eqn:Harrow; [eauto|].
  destruct skipNext; [eauto|]. simpl.
  destruct (startsWith "WEBVTT" (trim line) || startsWith "NOTE" (trim line)
            || startsWith "STYLE" (trim line)); [eauto|].
  destruct (is_empty (strip_tags (trim line))); [simpl; eauto|].
  right. split; [done|]. simpl.
  destruct (list_includes textLines (strip_tags (trim line))); simpl; eauto.
Qed.

Lemma subtitle_loop ls textLines skipNext kept0 :
  textLines = first_occurrences (map strip_tags kept0) →
  ∃ kept1,
    kept1 `sublist_of` map trim ls ∧
    Forall is_text_line kept1 ∧
    (foldl subtitle_step (textLines, skipNext) ls).1
      = first_occurrences (map strip_tags (kept0 ++ kept1)).
Proof.
  revert textLines skipNext kept0.
  induction ls as [|line ls IH]; intros textLines skipNext kept0 Hinv.
  { exists []. rewrite app_nil_r. by repeat split. }
  cbn [foldl].
  destruct (subtitle_step_cases textLines skipNext line)
    as [(skip' & ->)|(Htext & skip' & ->)].
  - destruct (IH textLines skip' kept0 Hinv) as (kept1 & Hsub & Hok & Heq).
    exists kept1. split; [by apply sublist_cons | done].
  - destruct (IH (if list_includes textLines (strip_tags (trim line))
                  then textLines else textLines ++ [strip_tags (trim line)])
                 skip' (kept0 ++ [trim line]))
      as (kept1 & Hsub & Hok & Heq).
    { rewrite map_app.
      change (map strip_tags [trim line]) with [strip_tags (trim line)].
      by rewrite first_occurrences_snoc, Hinv. }
    exists (trim line :: kept1). split; [by apply sublist_skip|].
    split; [by constructor|].
    by rewrite Heq, <- app_assoc.
Qed.

End SubtitleLoop.


(** ** Printing and parsing numbers and times *)

Section DecimalStrings.

Lemma leading_digit_cons (c : ascii) (s : string) (d : Z) :
  digit_in 10 c = Some d →
  leading_digits 10 (String c s) = d :: leading_digits 10 s.
Proof. intros H. simpl. by rewrite H. Qed.

(** The digits of a decimal numeral, read by [leading_digits] and folded
    from an accumulator, are the numeral read by the standard library. *)
Lemma uint_digits_acc (d : Decimal.uint) (acc : positive) :
  fold_left (λ a x, a * 10 + x)
            (leading_digits 10 (NilEmpty.string_of_uint d)) (Z.pos acc)
  = Z.pos (Pos.of_uint_acc d acc).
Proof.
  revert acc. induction d as [|d IH|d IH|d IH|d IH|d IH|d IH|d IH|d IH|d IH|d IH];
    intros acc; [done|..];
    cbn [NilEmpty.string_of_uint];
    erewrite leading_digit_cons by (vm_compute; reflexivity);
    cbn [fold_left Pos.of_uint_acc]; rewrite <- IH; f_equal; lia.
Qed.

Lemma uint_digits (d : Decimal.uint) :
  fold_left (λ a x, a * 10 + x)
            (leading_digits 10 (NilEmpty.string_of_uint d)) 0
  = Z.of_N (Pos.of_uint d).
Proof.
  induction d as [|d IH|d IH|d IH|d IH|d IH|d IH|d IH|d IH|d IH|d IH];
    [done|..];
    cbn [NilEmpty.string_of_uint];
    erewrite leading_digit_cons by (vm_compute; reflexivity);
    cbn [fold_left Pos.of_uint]; try exact IH;
    apply (uint_digits_acc d).
Qed.

Lemma uint_all_digits (d : Decimal.uint) :
  all_digits (NilEmpty.string_of_uint d) = true.
Proof. induction d; simpl; try done. Qed.

(** What [toString] prints for a number that is not negative: a non-empty
    run of digits whose decimal value is the number. *)
Lemma Z_toString_digits (z : Z) :
  0 ≤ z →
  Z_toString z ≠ EmptyString ∧
  all_digits (Z_toString z) = true ∧
  decimal_value (Z_toString z) = z.
Proof.
  intros Hz. unfold Z_toString, decimal_value, digits_value.
  destruct z as [|p|p]; [done| |lia].
  cbn [Z.to_int NilZero.string_of_int NilZero.string_of_uint].
  assert (Hs : NilZero.string_of_uint (Pos.to_uint p)
               = NilEmpty.string_of_uint (Pos.to_uint p)).
  { unfold NilZero.string_of_uint.
    destruct (Pos.to_uint p) eqn:E; try done.
    pose proof (DecimalPos.Unsigned.of_to p) as H. rewrite E in H. done. }
  rewrite Hs. split; [|split].
  - pose proof (DecimalPos.Unsigned.of_to p) as H.
    destruct (Pos.to_uint p); done.
  - apply uint_all_digits.
  - rewrite uint_digits, DecimalPos.Unsigned.of_to. done.
Qed.

(** On a non-empty run of digits [parseInt] returns the decimal value. *)
Lemma parseInt_decimal_value (s : string) :
  s ≠ EmptyString → all_digits s = true → parseInt s = Int (decimal_value s).
Proof.
  intros Hne Hall. destruct s as [|c s]; [done|].
  pose proof Hall as Hall'. simpl in Hall'.
  apply andb_true_iff in Hall' as [Hc Hs].
  unfold parseInt. simpl trimStart. rewrite (digit_not_white_space c Hc).
  rewrite !(digit_not c) by not_a_digit.
  assert (Hradix :
    match String c s with
    | String c0 (String x r) =>
        if Ascii.eqb c0 "0" && (Ascii.eqb x "x" || Ascii.eqb x "X")
        then (16, r) else (10, String c s)
    | _ => (10, String c s)
    end = (10, String c s)).
  { destruct s as [|x r]; [done|]. simpl in Hs.
    apply andb_true_iff in Hs as [Hx _].
    rewrite !(digit_not x) by not_a_digit.
    by rewrite andb_false_r. }
  rewrite Hradix.
  destruct (leading_digits_all (String c s) Hall) as [_ Hnil].
  unfold decimal_value.
  destruct (leading_digits 10 (String c s)) as [|d ds] eqn:E.
  { by destruct Hnil. }
  by rewrite Z.mul_1_l.
Qed.

End DecimalStrings.

(** [parseInt] reads back what [toString] prints, for every integer,
    negative ones included. *)
Lemma parseInt_toString (z : Z) : parseInt (Z_toString z) = Int z.
Proof.
  destruct z as [|p|p]; [reflexivity| |];
    destruct (Z_toString_digits (Z.pos p)) as (Hne & Hall & Hval); try done.
  - rewrite parseInt_decimal_value by done. by rewrite Hval.
  - assert (Hs : Z_toString (Z.neg p) = String "-" (Z_toString (Z.pos p))) by done.
    rewrite Hs. clear Hs.
    pose proof (parseInt_decimal_value _ Hne Hall) as Hpos.
    destruct (Z_toString (Z.pos p)) as [|c s] eqn:E; [done|].
    pose proof Hall as Hall'. simpl in Hall'.
    apply andb_true_iff in Hall' as [Hc Hs].
    unfold parseInt in *. simpl trimStart in *.
    rewrite (digit_not_white_space c Hc) in Hpos.
    rewrite !(digit_not c) in Hpos by not_a_digit.
    change (is_white_space "-") with false. cbv iota.
    change (Ascii.eqb "-" "-") with true. cbv iota.
    destruct (match String c s with
              | String c0 (String x r) =>
                  if Ascii.eqb c0 "0" && (Ascii.eqb x "x" || Ascii.eqb x "X")
                  then (16, r) else (10, String c s)
              | _ => (10, String c s)
              end) as [radix s3].
    destruct (leading_digits radix s3); [done|].
    injection Hpos as Hpos. rewrite Z.mul_1_l in Hpos. rewrite Hpos, Hval. done.
Qed.

Section SplitJoin.

Lemma append_cons (c : ascii) (a b : string) : String c a +:+ b = String c (a +:+ b).
Proof. done. Qed.

Lemma split_nonempty sep s : split sep s ≠ [].
Proof.
  destruct s as [|c s]; [done|]. simpl.
  destruct (Ascii.eqb c sep); [done|]. by destruct (split sep s).
Qed.

Lemma split_no_sep sep s : has_char sep s = false → split sep s = [s].
Proof.
  induction s as [|c s IH]; [done|]. simpl. intros H.
  apply orb_false_iff in H as [Hc Hs]. rewrite Hc, (IH Hs). done.
Qed.

Lemma split_append sep a r :
  has_char sep a = false → split sep (a +:+ String sep r) = a :: split sep r.
Proof.
  induction a as [|c a IH]; intros H.
  - change (EmptyString +:+ String sep r) with (String sep r).
    simpl. by rewrite Ascii.eqb_refl.
  - simpl in H. apply orb_false_iff in H as [Hc Ha].
    rewrite append_cons. simpl. rewrite Hc, (IH Ha). done.
Qed.

Lemma length_split sep s : length (split sep s) = S (count_char sep s).
Proof.
  induction s as [|c s IH]; [done|]. simpl.
  destruct (Ascii.eqb c sep); simpl; [by rewrite IH|].
  pose proof (split_nonempty sep s).
  destruct (split sep s); [done|]. simpl in *. done.
Qed.

(** No part of a split contains the separator. *)
Lemma split_parts_no_sep sep s :
  Forall (λ part, has_char sep part = false) (split sep s).
Proof.
  induction s as [|c s IH]; [by repeat constructor|]. simpl.
  destruct (Ascii.eqb c sep) eqn:E; [by constructor|].
  destruct (split sep s) as [|h t]; [by repeat constructor; simpl; rewrite E|].
  inversion IH; subst. constructor; [|done]. simpl. by rewrite E.
Qed.

Lemma digits_no_char c s :
  (code c < 48 ∨ 57 < code c) → all_digits s = true → has_char c s = false.
Proof.
  intros Hc. induction s as [|d s IH]; [done|]. simpl. intros H.
  apply andb_true_iff in H as [Hd Hs].
  by rewrite (digit_not d c Hd Hc), IH.
Qed.

End SplitJoin.

(** [split] and [join] are inverse: joining the parts of [s.split(sep)]
    with [sep] gives [s] back, and no part contains [sep]. *)
Lemma join_split (sep : ascii) (s : string) :
  join (String sep EmptyString) (split sep s) = s ∧
  Forall (λ part, has_char sep part = false) (split sep s).
Proof.
  split; [|apply split_parts_no_sep].
  induction s as [|c s IH]; [done|]. simpl.
  destruct (Ascii.eqb c sep) eqn:E.
  - apply Ascii.eqb_eq in E. subst c.
    pose proof (split_nonempty sep s).
    destruct (split sep s) as [|h t] eqn:Es; [done|].
    change (join (String sep EmptyString) (EmptyString :: h :: t))
      with (String sep (join (String sep EmptyString) (h :: t))).
    by rewrite IH.
  - pose proof (split_nonempty sep s).
    destruct (split sep s) as [|h t] eqn:Es; [done|].
    destruct t as [|h' t].
    + simpl in *. by rewrite IH.
    + change (join (String sep EmptyString) (String c h :: h' :: t))
        with (String c (join (String sep EmptyString) (h :: h' :: t))).
      by rewrite IH.
Qed.

Section FormattedTimes.

Lemma two_digits_below_60 (m : Z) :
  0 ≤ m < 60 → two_digit_string (padStart2 (Z_toString m)) = true.
Proof.
  intros Hm.
  assert (Hall : forallb (λ k, two_digit_string (padStart2 (Z_toString (Z.of_nat k))))
                         (seq 0 60) = true) by (vm_compute; reflexivity).
  rewrite forallb_forall in Hall.
  rewrite <- (Z2Nat.id m) by lia. apply Hall, in_seq. lia.
Qed.

(** Padding keeps a run of digits a run of digits with the same value. *)
Lemma padStart2_digits (s : string) :
  s ≠ EmptyString → all_digits s = true →
  padStart2 s ≠ EmptyString ∧ all_digits (padStart2 s) = true ∧
  decimal_value (padStart2 s) = decimal_value s.
Proof.
  intros Hne Hall. destruct s as [|c [|c' s]]; [done| |done].
  simpl in Hall. rewrite andb_true_r in Hall.
  split; [done|]. split; [simpl; by rewrite Hall|].
  unfold decimal_value, digits_value. simpl.
  rewrite (digit_in_10 c Hall). simpl. done.
Qed.

(** A printed and padded number that is not negative: digits that
    [parseInt] reads back. *)
Lemma padded_number (z : Z) :
  0 ≤ z →
  let s := padStart2 (Z_toString z) in
  all_digits s = true ∧ has_char ":" s = false ∧ parseInt s = Int z ∧
  ∃ c r, s = String c r ∧ is_digit c = true.
Proof.
  intros Hz s.
  destruct (Z_toString_digits z Hz) as (Hne & Hall & Hval).
  destruct (padStart2_digits _ Hne Hall) as (Hne' & Hall' & Hval').
  subst s.
  split; [done|]. split; [apply digits_no_char; [right; reflexivity | done]|].
  split; [by rewrite parseInt_decimal_value, Hval', Hval|].
  destruct (padStart2 (Z_toString z)) as [|c r]; [done|].
  exists c, r. split; [done|].
  simpl in Hall'. by apply andb_true_iff in Hall' as [? _].
Qed.

Lemma skip_digits_append (a r : string) (c : ascii) :
  all_digits a = true → is_digit c = false →
  skip_digits (a +:+ String c r) = String c r.
Proof.
  intros Ha Hc. induction a as [|d a IH].
  - change (EmptyString +:+ String c r) with (String c r). simpl. by rewrite Hc.
  - simpl in Ha. apply andb_true_iff in Ha as [Hd Ha].
    rewrite append_cons. simpl. rewrite Hd. by apply IH.
Qed.

Lemma time_pattern_append (X rest : string) :
  X ≠ EmptyString → all_digits X = true →
  time_pattern (X +:+ String ":" rest) =
    match rest with
    | String a (String b rest') =>
        is_digit_0_5 a && is_digit b &&
        match rest' with
        | EmptyString => true
        | String colon' (String c' (String d EmptyString)) =>
            Ascii.eqb colon' ":" && is_digit_0_5 c' && is_digit d
        | _ => false
        end
    | _ => false
    end.
Proof.
  intros Hne Hall. destruct X as [|c r]; [done|].
  pose proof Hall as Hall'. simpl in Hall'.
  apply andb_true_iff in Hall' as [Hc _].
  unfold time_pattern. rewrite append_cons, Hc.
  rewrite <- append_cons, skip_digits_append by done.
  by destruct rest as [|a [|b rest']].
Qed.

Lemma seconds_decomposition (n : Z) :
  0 ≤ n →
  0 ≤ n / 3600 ∧ 0 ≤ Z.rem n 3600 / 60 < 60 ∧ 0 ≤ Z.rem n 60 < 60 ∧
  n / 3600 * 3600 + Z.rem n 3600 / 60 * 60 + Z.rem n 60 = n ∧
  (n / 3600 = 0 → Z.rem n 3600 / 60 * 60 + Z.rem n 60 = n).
Proof.
  intros Hn. rewrite !Z.rem_mod_nonneg by lia.
  Z.div_mod_to_equations. lia.
Qed.

End FormattedTimes.



(** X2. [timeToSeconds] throws exactly on the strings that do not have one or
    two colons; on all others it returns a number, which may be [NaN]. *)
Theorem timeToSeconds_throws_iff (s : string) :
  (timeToSeconds s = Throw "Invalid time format" ↔
     count_char ":" s ≠ 1%nat ∧ count_char ":" s ≠ 2%nat) ∧
  (count_char ":" s = 1%nat ∨ count_char ":" s = 2%nat →
     ∃ n, timeToSeconds s = Ok n).
Proof.
  pose proof (length_split ":" s) as Hlen. unfold timeToSeconds.
  destruct (split ":" s) as [|p0 [|p1 [|p2 [|p3 rest]]]]; simpl in Hlen;
    (split; [split|]); try (intros [? ?]); try intros ?; try done; try lia;
    eauto.
Qed.

(** ** More on subtitles *)

Section SubtitleLines.

Lemma has_char_trimStart c s : has_char c s = false → has_char c (trimStart s) = false.
Proof.
  induction s as [|d s IH]; [done|]. simpl. intros H.
  apply orb_false_iff in H as [Hd Hs].
  destruct (is_white_space d); [by apply IH|]. simpl. by rewrite Hd, Hs.
Qed.

Lemma has_char_trimEnd c s : has_char c s = false → has_char c (trimEnd s) = false.
Proof.
  induction s as [|d s IH]; [done|]. simpl. intros H.
  apply orb_false_iff in H as [Hd Hs]. specialize (IH Hs).
  destruct (trimEnd s) as [|e r].
  - destruct (is_white_space d); [done|]. simpl. by rewrite Hd.
  - simpl in *. by rewrite Hd, IH.
Qed.

Lemma has_char_strip c b s :
  has_char c s = false → has_char c (strip_tags_from b s) = false.
Proof.
  revert b. induction s as [|d s IH]; intros b; [done|]. simpl. intros H.
  apply orb_false_iff in H as [Hd Hs].
  destruct b; [by apply IH|].
  destruct (Ascii.eqb d "<" && opens_tag s); [by apply IH|].
  simpl. by rewrite Hd, IH.
Qed.

Lemma has_char_clean c line :
  has_char c line = false → has_char c (clean_text line) = false.
Proof.
  intros H. unfold clean_text, strip_tags, trim.
  by apply has_char_strip, has_char_trimEnd, has_char_trimStart.
Qed.

(** Every text the loop records is non-empty and free of line feeds. *)
Lemma subtitle_loop_lines ls textLines skipNext :
  Forall (λ line, has_char newline line = false) ls →
  Forall (λ l, is_empty l = false ∧ has_char newline l = false) textLines →
  Forall (λ l, is_empty l = false ∧ has_char newline l = false)
         (foldl subtitle_step (textLines, skipNext) ls).1.
Proof.
  intros Hls. revert textLines skipNext.
  induction Hls as [|line ls Hline _ IH]; intros textLines skipNext Hinv; [done|].
  cbn [foldl]. unfold subtitle_step at 2.
  repeat (case_match; try (by apply IH)).
  apply IH. apply Forall_app. split; [done|]. constructor; [|done].
  match goal with H : _ && _ = true |- _ => apply andb_true_iff in H as [H _];
    apply negb_true_iff in H end.
  split; [done|]. by apply has_char_clean.
Qed.

Lemma split_join sep (l : list string) :
  l ≠ [] → Forall (λ part, has_char sep part = false) l →
  split sep (join (String sep EmptyString) l) = l.
Proof.
  intros Hne Hl. induction Hl as [|x l Hx Hl IH]; [done|].
  destruct l as [|y l].
  - simpl. by apply split_no_sep.
  - change (join (String sep EmptyString) (x :: y :: l))
      with (x +:+ String sep (join (String sep EmptyString) (y :: l))).
    rewrite split_append by done. by rewrite IH.
Qed.

End SubtitleLines.

(** X3. The text returned for a subtitle file has one line for each recorded
    text and nothing else: splitting it at line feeds gives [textLines]
    back, no line of it is empty, and it is the empty string exactly when
    no text was recorded. *)
Theorem subtitle_output_lines (content : string) :
  let textLines := subtitle_text_lines content in
  Forall (λ l, l ≠ EmptyString ∧ has_char newline l = false) textLines ∧
  (textLines ≠ [] → split newline (convertSubtitleToText content) = textLines) ∧
  (convertSubtitleToText content = EmptyString ↔ textLines = []).
Proof.
  intros textLines.
  assert (Hlines : Forall (λ l, is_empty l = false ∧ has_char newline l = false)
                          textLines).
  { apply subtitle_loop_lines; [apply split_parts_no_sep | constructor]. }
  split; [|split].
  - eapply Forall_impl; [exact Hlines|]. intros l [Hl ?]. split; [|done].
    by destruct l.
  - intros Hne. apply split_join; [done|].
    eapply Forall_impl; [exact Hlines|]. by intros l [_ ?].
  - unfold convertSubtitleToText. fold textLines.
    destruct Hlines as [|x l [Hx _] _]; [done|].
    split; [|done]. destruct x as [|c x]; [done|].
    by destruct l.
Qed.

Section WellFormedSubtitles.

Lemma add_texts_app textLines xs ys :
  add_texts textLines (xs ++ ys) = add_texts (add_texts textLines xs) ys.
Proof. apply foldl_app. Qed.

Lemma texts_of_app xs ys : texts_of (xs ++ ys) = texts_of xs ++ texts_of ys.
Proof. unfold texts_of. by rewrite map_app, filter_app. Qed.

Lemma texts_of_cons line lines :
  texts_of (line :: lines) =
    if is_empty (strip_tags (trim line)) then texts_of lines
    else strip_tags (trim line) :: texts_of lines.
Proof.
  unfold texts_of. cbn [map]. rewrite filter_cons.
  destruct (is_empty (strip_tags (trim line))); by case_decide.
Qed.

(** A line of text is recorded, unless it is empty once cleaned or already
    there, and leaves [skipNext] off. *)
Lemma step_cue_text textLines line :
  is_cue_text line = true →
  subtitle_step (textLines, false) line
  = (add_texts textLines (texts_of [line]), false).
Proof.
  unfold is_cue_text. intros H.
  repeat (apply andb_true_iff in H as [H ?]).
  repeat match goal with H : negb _ = true |- _ => apply negb_true_iff in H end.
  unfold subtitle_step. rewrite H.
  repeat match goal with H : _ = false |- _ => rewrite H end. simpl.
  rewrite texts_of_cons. unfold texts_of. simpl.
  destruct (is_empty (strip_tags (trim line))); [done|]. simpl.
  unfold add_texts. simpl.
  by destruct (list_includes textLines (strip_tags (trim line))).
Qed.

Lemma loop_cue_text textLines lines :
  forallb is_cue_text lines = true →
  foldl subtitle_step (textLines, false) lines
  = (add_texts textLines (texts_of lines), false).
Proof.
  revert textLines. induction lines as [|line lines IH]; intros textLines H; [done|].
  simpl in H. apply andb_true_iff in H as [Hline Hlines].
  cbn [foldl]. rewrite (step_cue_text _ _ Hline), (IH _ Hlines).
  change (line :: lines) with ([line] ++ lines).
  by rewrite texts_of_app, add_texts_app.
Qed.

Lemma loop_blank textLines skipNext lines :
  forallb (λ line, is_empty (trim line)) lines = true →
  foldl subtitle_step (textLines, skipNext) lines = (textLines, skipNext).
Proof.
  induction lines as [|line lines IH]; intros H; [done|].
  simpl in H. apply andb_true_iff in H as [Hline Hlines].
  cbn [foldl]. unfold subtitle_step at 2. rewrite Hline. by apply IH.
Qed.

Lemma loop_header textLines lines :
  forallb is_header_line lines = true →
  foldl subtitle_step (textLines, false) lines = (textLines, false).
Proof.
  induction lines as [|line lines IH]; intros H; [done|].
  simpl in H. apply andb_true_iff in H as [Hline Hlines].
  cbn [foldl]. rewrite <- (IH Hlines) at 2. f_equal.
  unfold is_header_line in Hline. unfold subtitle_step.
  destruct (is_empty (trim line)); [done|]. simpl in Hline.
  repeat (apply andb_true_iff in Hline as [Hline ?]).
  repeat match goal with H : negb _ = true |- _ => apply negb_true_iff in H end.
  rewrite Hline.
  repeat match goal with H : _ = false |- _ => rewrite H end. simpl.
  by repeat match goal with H : _ = true |- _ => rewrite H end.
Qed.

(** One well-formed cue: its number and its timing line are dropped, its
    texts recorded, and [skipNext] is off at its end. *)
Lemma loop_cue textLines skipNext c :
  well_formed_cue c = true →
  foldl subtitle_step (textLines, skipNext) (cue_lines c)
  = (add_texts textLines (texts_of (cue_text c)), false).
Proof.
  unfold well_formed_cue. intros H.
  repeat (apply andb_true_iff in H as [H ?]).
  repeat match goal with H : negb _ = true |- _ => apply negb_true_iff in H end.
  unfold cue_lines. cbn [foldl].
  assert (Hnum : subtitle_step (textLines, skipNext) (cue_number c) = (textLines, true)).
  { unfold subtitle_step. rewrite H.
    destruct (is_empty (trim (cue_number c))) eqn:E; [|done].
    by destruct (trim (cue_number c)). }
  assert (Htim : subtitle_step (textLines, true) (cue_timing c) = (textLines, false)).
  { unfold subtitle_step.
    repeat match goal with H : _ = false |- _ => rewrite H end.
    by rewrite orb_true_r. }
  rewrite Hnum, Htim, foldl_app, loop_cue_text by done.
  by apply loop_blank.
Qed.

Lemma loop_cues textLines skipNext cues :
  forallb well_formed_cue cues = true →
  (foldl subtitle_step (textLines, skipNext) (concat (map cue_lines cues))).1
  = add_texts textLines (texts_of (concat (map cue_text cues))).
Proof.
  revert textLines skipNext.
  induction cues as [|c cues IH]; intros textLines skipNext H; [done|].
  simpl in H. apply andb_true_iff in H as [Hc Hcues].
  cbn [map concat]. rewrite foldl_app, (loop_cue _ _ _ Hc), (IH _ _ Hcues).
  by rewrite texts_of_app, add_texts_app.
Qed.

End WellFormedSubtitles.

(** X4. For a file made of header lines followed by well-formed cues, the
    recorded texts are the cleaned texts of all cues that are not empty, in
    the order of their first occurrence: nothing of the text is lost and
    nothing of the numbers, timings and headers is kept. *)
Theorem well_formed_subtitles (content : string) (header : list string)
    (cues : list Cue) :
  split newline content = header ++ concat (map cue_lines cues) →
  forallb is_header_line header = true →
  forallb well_formed_cue cues = true →
  subtitle_text_lines content
  = first_occurrences (texts_of (concat (map cue_text cues))).
Proof.
  intros Hsplit Hheader Hcues. unfold subtitle_text_lines.
  rewrite Hsplit, foldl_app, (loop_header _ _ Hheader).
  by rewrite (loop_cues _ _ _ Hcues).
Qed.

Lemma well_formed_subtitles_witness :
  subtitle_text_lines sample_srt = ["Hello"; "world"].
Proof.
  rewrite (well_formed_subtitles sample_srt [] sample_cues); reflexivity.
Defined.

(** ** The progress endpoint and the outcome of a job *)

Section ProgressEndpoint.

Lemma count_char_append_sep sep a r :
  (1 ≤ count_char sep (a +:+ String sep r))%nat.
Proof.
  induction a as [|c a IH].
  - change (EmptyString +:+ String sep r) with (String sep r). simpl.
    rewrite Ascii.eqb_refl. lia.
  - rewrite append_cons. simpl. lia.
Qed.

Lemma last_split_append sep a r :
  last (split sep (a +:+ String sep r)) = last (split sep r).
Proof.
  induction a as [|c a IH].
  - change (EmptyString +:+ String sep r) with (String sep r). simpl.
    rewrite Ascii.eqb_refl. pose proof (split_nonempty sep r).
    destruct (split sep r); try done; reflexivity.
  - rewrite append_cons. simpl.
    pose proof (length_split sep (a +:+ String sep r)) as Hlen.
    pose proof (count_char_append_sep sep a r) as Hcount.
    rewrite <- IH.
    destruct (split sep (a +:+ String sep r)) as [|h [|h' t]];
      simpl in Hlen; try lia.
    by destruct (Ascii.eqb c sep).
Qed.

Lemma last_segment_of_id (prefix id : string) :
  has_char "/" id = false →
  last_segment (prefix +:+ String "/" id) = id.
Proof.
  intros H. unfold last_segment.
  by rewrite last_split_append, split_no_sep.
Qed.

Lemma has_char_append c a b :
  has_char c (a +:+ b) = has_char c a || has_char c b.
Proof.
  induction a as [|d a IH]; [done|].
  rewrite append_cons. simpl. by rewrite IH, orb_assoc.
Qed.

Lemma has_char_remove c p s :
  has_char c s = false → has_char c (remove_chars p s) = false.
Proof.
  induction s as [|d s IH]; [done|]. simpl. intros H.
  apply orb_false_iff in H as [Hd Hs].
  destruct (p d); [by apply IH|]. simpl. by rewrite Hd, IH.
Qed.

Lemma has_char_substring c n m s :
  has_char c s = false → has_char c (String.substring n m s) = false.
Proof.
  revert n m. induction s as [|d s IH]; intros n m H.
  { by destruct n, m. }
  simpl in H. apply orb_false_iff in H as [Hd Hs].
  destruct n as [|n]; destruct m as [|m]; simpl; try done.
  - by rewrite Hd, IH.
  - by apply IH.
  - by apply IH.
Qed.

Lemma hex_digit_alnum n : 0 ≤ n < 16 → has_char (hex_digit n) "0123456789abcdef" = true.
Proof.
  intros Hn.
  assert (H : forallb (λ k, has_char (hex_digit (Z.of_nat k)) "0123456789abcdef")
                      (seq 0 16) = true) by (vm_compute; reflexivity).
  rewrite forallb_forall in H. rewrite <- (Z2Nat.id n) by lia.
  apply H, in_seq. lia.
Qed.

Lemma code_range c : 0 ≤ code c < 256.
Proof.
  unfold code. pose proof (N_ascii_bounded c). lia.
Qed.

Lemma has_char_hex c bytes :
  has_char c "0123456789abcdef" = false → has_char c (hex bytes) = false.
Proof.
  intros Hc. induction bytes as [|b bytes IH]; [done|].
  pose proof (code_range b) as Hb.
  assert (Hd : ∀ n, 0 ≤ n < 16 → Ascii.eqb (hex_digit n) c = false).
  { intros n Hn. destruct (Ascii.eqb (hex_digit n) c) eqn:E; [|done].
    apply Ascii.eqb_eq in E. subst c.
    by rewrite hex_digit_alnum in Hc. }
  simpl. rewrite !Hd, IH; [done| |].
  - apply Z.mod_pos_bound. lia.
  - split; [apply Z.div_pos; lia | apply Z.div_lt_upper_bound; lia].
Qed.

(** The id has no slash when the timestamp has none. *)
Lemma generateId_no_slash clock :
  has_char "/" (toISOString clock) = false →
  has_char "/" (generateId clock) = false.
Proof.
  intros H. unfold generateId.
  rewrite !has_char_append, has_char_substring, has_char_hex; try done.
  by apply has_char_remove.
Qed.

End ProgressEndpoint.

(** X5. The progress endpoint answers with the record the store holds for
    the last segment of the path, and with 404 and "Download not found" when
    there is none; for [/api/progress/<id>] with an id without a slash that
    segment is the id. *)
Theorem progress_endpoint_reads_store (id : string) (w : World) :
  has_char "/" id = false →
  handleGetProgress ("/api/progress/" +:+ id) w =
    match downloadProgress w !! id with
    | Some r => {| progress_http_status := 200; progress_reply := ProgressFound r |}
    | None => {| progress_http_status := 404;
                 progress_reply := ProgressNotFound "Download not found" |}
    end.
Proof.
  intros H. unfold handleGetProgress.
  change ("/api/progress/" +:+ id) with ("/api/progress" +:+ String "/" id).
  by rewrite last_segment_of_id.
Qed.

Lemma progress_endpoint_reads_store_witness :
  handleGetProgress ("/api/progress/" +:+ "job") queued_world
  = {| progress_http_status := 200; progress_reply := ProgressFound initial_record |}.
Proof.
  rewrite (progress_endpoint_reads_store "job" queued_world); reflexivity.
Defined.

(** X6. Polling right after a request was queued: the progress endpoint,
    asked for the id the handler answered with, returns status 200 and the
    record [downloading], 0, "Starting download...". *)
Theorem poll_after_request (is_url : string → bool) (reqBody : result json)
    (clock : Clock) (w : World) (resp : Response) (w' : World) (job : Pipeline) :
  handleDownloadClip is_url reqBody clock w = (resp, w', Some job) →
  has_char "/" (toISOString clock) = false →
  body resp = ClipQueued true (job_id job) (job_id job +:+ ".mp4")
                ("/api/download-file/" +:+ job_id job +:+ ".mp4") ∧
  handleGetProgress ("/api/progress/" +:+ job_id job) w'
  = {| progress_http_status := 200; progress_reply := ProgressFound initial_record |}.
Proof.
  intros Hreq Hclock.
  destruct (queued_job_started is_url _ _ _ _ _ _ Hreq) as (_ & Hid & Hw).
  split.
  - unfold handleDownloadClip in Hreq. rewrite Hid.
    repeat case_match; by simplify_eq.
  - change ("/api/progress/" +:+ job_id job)
      with ("/api/progress" +:+ String "/" (job_id job)).
    unfold handleGetProgress.
    rewrite last_segment_of_id by (rewrite Hid; by apply generateId_no_slash).
    rewrite Hw, Hid. simpl. by rewrite lookup_insert_eq.
Qed.

Lemma poll_after_request_witness :
  ∃ resp w' job,
    handleDownloadClip (λ _, true) (Ok (clip_body "0:10" "0:40")) sample_clock empty_world
      = (resp, w', Some job) ∧
    handleGetProgress ("/api/progress/" +:+ job_id job) w'
    = {| progress_http_status := 200; progress_reply := ProgressFound initial_record |}.
Proof.
  pose proof (poll_after_request (λ _, true) (Ok (clip_body "0:10" "0:40"))
                sample_clock empty_world) as H.
  destruct (handleDownloadClip (λ _, true) (Ok (clip_body "0:10" "0:40"))
              sample_clock empty_world) as [[resp w'] [job|]] eqn:E.
  - exists resp, w', job. split; [reflexivity|].
    apply (H resp w' job); reflexivity.
  - vm_compute in E. discriminate E.
Defined.

Section JobOutcome.

Lemma job_succeeds_last id tools :
  job_succeeds tools = true →
  last (job_records id tools) = Some (completed_record id).
Proof.
  unfold job_succeeds, job_records, stage_A_records, stage_B_records, download_ok.
  destruct (tools yt_dlp) as [stderr code|err n]; [|done].
  intros H. apply andb_true_iff in H as [Hdl H]. rewrite Hdl.
  apply bool_decide_eq_true_1 in Hdl. rewrite decide_True by done.
  destruct (tools ffmpeg) as [? c1|err n]; [|done].
  destruct (decide (c1 = Some 0)); [apply last_snoc|].
  rewrite bool_decide_eq_false_2 in H by done. simpl in H.
  destruct (tools ffmpeg_reencode) as [? c2|]; [|done].
  apply bool_decide_eq_true_1 in H. rewrite decide_True by done.
  apply last_snoc.
Qed.

Lemma writes_of_other id k rs :
  k ≠ id →
  omap (λ e : string * DownloadProgress, if decide (e.1 = k) then Some e.2 else None)
       (map (pair id) rs) = [].
Proof.
  intros Hk. induction rs as [|r rs IH]; [done|].
  cbn [map omap list_omap fst snd]. by rewrite decide_False.
Qed.

Lemma store_after_writes_ne id k rs (m : gmap string DownloadProgress) :
  k ≠ id → foldl (λ m r, <[id := r]> m) m rs !! k = m !! k.
Proof.
  intros Hk. revert m. induction rs as [|r rs IH]; intros m; [done|].
  cbn [foldl]. rewrite IH. by apply lookup_insert_ne.
Qed.

(** What [published] leaves alone: the records and histories of other ids,
    the sockets that are not attached to the id, and the table of sockets. *)
Lemma published_frame id rs w w' :
  published id rs w w' →
  (∀ k, k ≠ id →
     downloadProgress w' !! k = downloadProgress w !! k ∧
     writes_of k w' = writes_of k w) ∧
  (∀ ws, is_attached id ws w = false → sent_to ws w' = sent_to ws w) ∧
  clients w' = clients w ∧ readyState w' = readyState w.
Proof.
  intros (Hw & Hc & Hr & Hd & Hs). repeat split; try done.
  - rewrite Hd. by apply store_after_writes_ne.
  - unfold writes_of. rewrite Hw, omap_app, writes_of_other by done.
    apply app_nil_r.
  - intros ws Ha. rewrite Hs, Ha. apply app_nil_r.
Qed.

End JobOutcome.

(** X7. When the download succeeds and the cut succeeds, at once or by its
    retry, the last record the job writes is [completed], 100, "Done!" with
    the file name and the download URL of the id; it is the record the store
    holds and the last message of every attached, open socket. *)
Theorem successful_job_completed (tools : Proc → ProcRun) (p : Pipeline) (w : World) :
  started p = true → job_succeeds tools = true →
  let id := job_id p in
  let w' := (run_pipeline tools p w).2 in
  let final := {| status := completed; progress := 100; message := "Done!";
                 filename := Some (id +:+ ".mp4");
                 download_url := Some ("/api/download-file/" +:+ id +:+ ".mp4") |} in
  last (writes_of id w') = Some final ∧
  downloadProgress w' !! id = Some final ∧
  ∀ ws, is_attached id ws w = true → readyState w ws = WebSocket_OPEN →
        last (sent_to ws w') = Some (progress_message id final).
Proof.
  intros Hst Hok id w' final.
  destruct (published_observed _ _ _ _ (run_published tools p w Hst))
    as (Hw & Hd & Hs).
  pose proof (job_succeeds_last id tools Hok) as Hlast.
  unfold w'. fold id in Hw, Hd, Hs. rewrite Hw, Hd, Hlast, last_app, Hlast.
  repeat split.
  intros ws Ha Ho.
  by rewrite (Hs ws Ha Ho), last_app, (last_map_Some _ _ _ Hlast).
Qed.

Lemma successful_job_completed_witness :
  downloadProgress (run_pipeline retry_succeeds sample_job queued_world).2 !! "job"
  = Some (completed_record "job").
Proof.
  destruct (successful_job_completed retry_succeeds sample_job queued_world)
    as (_ & H & _); [reflexivity..|exact H].
Defined.

(** X8. A job touches nothing but its own: the records and the write
    histories of all other ids, the messages of every socket that is not
    attached to its id, and the table of sockets are what they were. *)
Theorem job_isolation (tools : Proc → ProcRun) (p : Pipeline) (w : World) :
  started p = true →
  let w' := (run_pipeline tools p w).2 in
  (∀ k, k ≠ job_id p →
     downloadProgress w' !! k = downloadProgress w !! k ∧
     writes_of k w' = writes_of k w) ∧
  (∀ ws, is_attached (job_id p) ws w = false → sent_to ws w' = sent_to ws w) ∧
  clients w' = clients w ∧ readyState w' = readyState w.
Proof.
  intros Hst. apply (published_frame _ (job_records (job_id p) tools)).
  by apply run_published.
Qed.

Lemma job_isolation_witness :
  downloadProgress (run_pipeline two_streams sample_job queued_world).2 !! "other"
  = downloadProgress queued_world !! "other".
Proof.
  destruct (job_isolation two_streams sample_job queued_world) as (H & _);
    [reflexivity|].
  destruct (H "other") as [H' _]; [discriminate | exact H'].
Defined.

(** X9. From the request to the last poll: for a request the handler queues
    and a run in which download and cut succeed, the progress endpoint ends
    up answering 200 with [completed], 100, "Done!" and exactly the file
    name and download URL the handler promised in its response. *)
Theorem clip_end_to_end (is_url : string → bool) (reqBody : result json)
    (clock : Clock) (w : World) (resp : Response) (w' : World) (job : Pipeline)
    (tools : Proc → ProcRun) :
  handleDownloadClip is_url reqBody clock w = (resp, w', Some job) →
  has_char "/" (toISOString clock) = false →
  job_succeeds tools = true →
  ∃ file link,
    http_status resp = 200 ∧
    body resp = ClipQueued true (job_id job) file link ∧
    handleGetProgress ("/api/progress/" +:+ job_id job) (run_pipeline tools job w').2
    = {| progress_http_status := 200;
         progress_reply :=
           ProgressFound {| status := completed; progress := 100; message := "Done!";
                            filename := Some file; download_url := Some link |} |}.
Proof.
  intros Hreq Hclock Hok.
  destruct (queued_job_started is_url _ _ _ _ _ _ Hreq) as (Hst & Hid & Hw).
  exists (job_id job +:+ ".mp4"), ("/api/download-file/" +:+ job_id job +:+ ".mp4").
  assert (Hresp : http_status resp = 200 ∧
            body resp = ClipQueued true (job_id job) (job_id job +:+ ".mp4")
                          ("/api/download-file/" +:+ job_id job +:+ ".mp4")).
  { unfold handleDownloadClip in Hreq. rewrite Hid.
    repeat case_match; by simplify_eq. }
  destruct Hresp as [? ?]. split; [done|]. split; [done|].
  destruct (published_observed _ _ _ _ (run_published tools job w' Hst))
    as (_ & Hd & _).
  rewrite (job_succeeds_last _ _ Hok) in Hd.
  change ("/api/progress/" +:+ job_id job)
    with ("/api/progress" +:+ String "/" (job_id job)).
  unfold handleGetProgress.
  rewrite last_segment_of_id by (rewrite Hid; by apply generateId_no_slash).
  by rewrite Hd.
Qed.

Lemma clip_end_to_end_witness :
  ∃ resp w' job file link,
    handleDownloadClip (λ _, true) (Ok (clip_body "0:10" "0:40")) sample_clock empty_world
      = (resp, w', Some job) ∧
    body resp = ClipQueued true (job_id job) file link ∧
    handleGetProgress ("/api/progress/" +:+ job_id job)
                      (run_pipeline retry_succeeds job w').2
    = {| progress_http_status := 200;
         progress_reply :=
           ProgressFound {| status := completed; progress := 100; message := "Done!";
                            filename := Some file; download_url := Some link |} |}.
Proof.
  pose proof (clip_end_to_end (λ _, true) (Ok (clip_body "0:10" "0:40"))
                sample_clock empty_world) as H.
  destruct (handleDownloadClip (λ _, true) (Ok (clip_body "0:10" "0:40"))
              sample_clock empty_world) as [[resp w'] [job|]] eqn:E.
  - destruct (H resp w' job retry_succeeds) as (file & link & _ & Hb & Hp);
      [reflexivity..|].
    exists resp, w', job, file, link. auto.
  - vm_compute in E. discriminate E.
Defined.

Section Outcomes.

Lemma job_records_outcome id tools :
  ∃ r, last (job_records id tools) = Some r ∧
    match status r with
    | completed => job_succeeds tools = true ∧ r = completed_record id
    | error => ∃ msg, caught_failure tools = Some msg ∧ r = record error 0 msg
    | processing =>
        r = record processing 60 "Cutting video..." ∧
        ∃ stderr code err errno,
          tools ffmpeg = runs stderr code ∧ code ≠ Some 0 ∧
          tools ffmpeg_reencode = fails_to_spawn err errno
    | downloading => False
    end.
Proof.
  unfold job_succeeds, caught_failure, job_records, stage_A_records,
    stage_B_records, download_ok.
  destruct (tools yt_dlp) as [stderr code|err n].
  - destruct (decide (code = Some 0)) as [Hc|Hc].
    + rewrite bool_decide_eq_true_2 by done.
      destruct (tools ffmpeg) as [stderr1 c1|err n].
      * destruct (decide (c1 = Some 0)) as [Hc1|Hc1].
        { eexists. split; [apply last_snoc|]. simpl.
          by rewrite bool_decide_eq_true_2. }
        destruct (tools ffmpeg_reencode) as [stderr2 c2|err n].
        { destruct (decide (c2 = Some 0)) as [Hc2|Hc2].
          - eexists. split; [apply last_snoc|]. simpl.
            rewrite (bool_decide_eq_true_2 (c2 = Some 0)) by done.
            by rewrite orb_true_r.
          - eexists. split; [apply last_snoc|]. simpl. by eexists. }
        eexists. split; [by rewrite app_nil_r, last_app|].
        simpl. split; [done|]. by exists stderr1, c1, err, n.
      * eexists. split; [apply last_snoc|]. simpl. by eexists.
    + rewrite bool_decide_eq_false_2, app_nil_r by done.
      eexists. split; [apply last_snoc|]. simpl. by eexists.
  - eexists. split; [reflexivity|]. simpl. by eexists.
Qed.

End Outcomes.

(** X10. How a job ends.  When its processes are over, the store holds a
    record for the job, the last one it wrote, and that record is one of
    three: [completed] (exactly the record of a successful job), [error]
    with progress 0 and the message of the failure the job caught, or
    [processing], 60, "Cutting video...", which is left behind only when the
    stream copy exited with a failure and the re-encoding could not be
    spawned.  It is never [downloading]. *)
Theorem job_outcome (tools : Proc → ProcRun) (p : Pipeline) (w : World) :
  started p = true →
  let id := job_id p in
  let w' := (run_pipeline tools p w).2 in
  ∃ r, downloadProgress w' !! id = Some r ∧
       last (writes_of id w') = Some r ∧
       match status r with
       | completed => job_succeeds tools = true ∧ r = completed_record id
       | error => ∃ msg, caught_failure tools = Some msg ∧ r = record error 0 msg
       | processing =>
           r = record processing 60 "Cutting video..." ∧
           ∃ stderr code err errno,
             tools ffmpeg = runs stderr code ∧ code ≠ Some 0 ∧
             tools ffmpeg_reencode = fails_to_spawn err errno
       | downloading => False
       end.
Proof.
  intros Hst id w'.
  destruct (published_observed _ _ _ _ (run_published tools p w Hst))
    as (Hw & Hd & _).
  destruct (job_records_outcome id tools) as (r & Hlast & Hr).
  exists r. unfold w'. fold id in Hw, Hd.
  rewrite Hw, Hd, last_app, Hlast. done.
Qed.

Lemma job_outcome_witness :
  ∃ r, downloadProgress (run_pipeline download_fails sample_job queued_world).2 !! "job"
         = Some r ∧
       status r = error ∧
       caught_failure download_fails = Some (message r).
Proof.
  destruct (job_outcome download_fails sample_job queued_world) as (r & Hd & _ & Hr);
    [reflexivity|].
  exists r. split; [exact Hd|].
  vm_compute in Hd. injection Hd as <-. by vm_compute.
Defined.

(** ** The server at all times *)

Section ServerSteps.

Implicit Types (w : World) (p : Pipeline) (rs : list DownloadProgress).

Lemma download_record_well_formed m : well_formed_record (download_record (parseFloat m)).
Proof.
  unfold well_formed_record.
  change (status (download_record (parseFloat m))) with downloading. cbv iota.
  split; [|done]. apply download_progress_bounds, parseFloat_nonneg.
Qed.

Lemma published_two id r1 r2 w :
  published id [r1; r2] w
    (broadcastProgress id
       (downloadProgress_set id r2
          (broadcastProgress id (downloadProgress_set id r1 w)))).
Proof.
  apply (published_snoc id [r1]); [|done].
  apply (published_snoc _ [] _ _ _ _ (published_refl _ _)). done.
Qed.

Lemma error_record_well_formed msg : well_formed_record (record error 0 msg).
Proof. by repeat split. Qed.

(** Whatever event of whatever process reaches whatever job: the records
    written are published, on the id of the job, and are well-formed. *)
Lemma deliver_published proc ev p w :
  ∃ rs, published (job_id p) rs w (deliver proc ev p w).2 ∧
        Forall well_formed_record rs.
Proof.
  assert (Hnone : ∃ rs, published (job_id p) rs w w ∧ Forall well_formed_record rs).
  { exists []. split; [apply published_refl | constructor]. }
  assert (Hone : ∀ r, well_formed_record r →
            ∃ rs, published (job_id p) rs w
                    (broadcastProgress (job_id p) (downloadProgress_set (job_id p) r w))
                  ∧ Forall well_formed_record rs).
  { intros r Hr. exists [r]. split; [apply published_one | by repeat constructor]. }
  assert (Hcatch : ∀ msg, ∃ rs,
            published (job_id p) rs w
              (broadcastProgress (job_id p)
                 (downloadProgress_set (job_id p) (record error 0 msg) w))
            ∧ Forall well_formed_record rs).
  { intros msg. apply Hone, error_record_well_formed. }
  assert (Hdone : ∃ rs,
            published (job_id p) rs w
              (broadcastProgress (job_id p)
                 (downloadProgress_set (job_id p) (completed_record (job_id p)) w))
            ∧ Forall well_formed_record rs).
  { apply Hone. split; [done|]. by exists (job_id p). }
  unfold deliver. destruct (uncaught p); [done|].
  destruct proc.
  - unfold runYTDLPWithProgress_on. destruct ev as [data|code|err].
    + unfold on_stderr_data. simpl. destruct (match_percent data); [|done].
      apply Hone, download_record_well_formed.
    + destruct (decide (code = Some 0)).
      * unfold settle_download.
        destruct (download p); simpl.
        -- exists [record processing 50 "Processing video...";
                  record processing 60 "Cutting video..."].
           split; [apply published_two|].
           constructor; [|constructor; [|constructor]];
             unfold well_formed_record; simpl; auto.
        -- apply Hone. unfold well_formed_record; simpl; auto.
        -- apply Hone. unfold well_formed_record; simpl; auto.
      * unfold settle_download. destruct (download p); simpl; auto.
    + unfold settle_download. destruct (download p); simpl; auto.
  - destruct (cut p) as [c|] eqn:Hc; [|done].
    unfold runFFmpeg_proc_on, settle_cut. rewrite Hc.
    destruct ev as [data|code|err]; [done| |].
    + destruct (decide (code = Some 0)); [|done]. destruct c; simpl; auto.
    + destruct c; simpl; auto.
  - destruct (reencodeProc p); [|done].
    unfold runFFmpeg_reencodeProc_on, settle_cut.
    destruct ev as [data|code|err]; [done| |done].
    destruct (cut p) as [[]|]; destruct (decide (code = Some 0)); simpl; auto.
Qed.

(** The invariant survives records being written and published. *)
Lemma invariant_published id rs w w' :
  published id rs w w' → Forall well_formed_record rs →
  server_invariant w → server_invariant w'.
Proof.
  intros Hpub Hrs (I1 & I2 & I3 & I4).
  destruct (published_observed _ _ _ _ Hpub) as (Hw & Hd & _).
  destruct (published_frame _ _ _ _ Hpub) as (Hother & _ & Hc & Hr).
  destruct Hpub as (_ & _ & _ & _ & Hs).
  assert (Hmono : ∀ k r, r ∈ writes_of k w → r ∈ writes_of k w').
  { intros k r Hin. destruct (decide (k = id)) as [->|Hk].
    - rewrite Hw. apply elem_of_app. by left.
    - by rewrite (proj2 (Hother k Hk)). }
  split; [|split; [|split]].
  - intros k. destruct (decide (k = id)) as [->|Hk].
    + rewrite Hd, Hw, last_app, <- I1. by destruct (last rs).
    + destruct (Hother k Hk) as [-> ->]. apply I1.
  - intros k ws Ha. apply I2. by rewrite <- (is_attached_clients k ws w w' Hc).
  - intros ws m H. rewrite Hs in H. apply elem_of_app in H as [H|H].
    { destruct (I3 ws m H) as (? & ? & ?). repeat split; [done..|]. by apply Hmono. }
    destruct (is_attached id ws w) eqn:Ha; [|by apply not_elem_of_nil in H].
    destruct (readyState w ws =? WebSocket_OPEN); [|by apply not_elem_of_nil in H].
    apply list_elem_of_In, in_map_iff in H as (r & <- & Hr').
    repeat split; [by apply I2|]. simpl.
    rewrite Hw. apply elem_of_app. right. by apply list_elem_of_In.
  - intros k r Hin. destruct (decide (k = id)) as [->|Hk].
    + rewrite Hw in Hin. apply elem_of_app in Hin as [Hin|Hin]; [by eapply I4|].
      rewrite Forall_forall in Hrs. by apply Hrs.
    + rewrite (proj2 (Hother k Hk)) in Hin. by eapply I4.
Qed.

(** The invariant survives the first write of a request. *)
Lemma invariant_queued id w :
  server_invariant w → server_invariant (downloadProgress_set id initial_record w).
Proof.
  intros (I1 & I2 & I3 & I4).
  assert (Hw : ∀ k, writes_of k (downloadProgress_set id initial_record w)
                    = writes_of k w ++ if decide (id = k) then [initial_record] else []).
  { intros k. unfold writes_of. simpl. rewrite omap_app. simpl.
    by destruct (decide (id = k)). }
  split; [|split; [|split]].
  - intros k. rewrite Hw. simpl. destruct (decide (id = k)) as [->|Hk].
    + by rewrite lookup_insert_eq, last_snoc.
    + rewrite lookup_insert_ne, app_nil_r by done. apply I1.
  - exact I2.
  - intros ws m H. destruct (I3 ws m H) as (? & ? & ?). repeat split; [done..|].
    rewrite Hw. apply elem_of_app. by left.
  - intros k r. rewrite Hw. intros Hin. apply elem_of_app in Hin as [Hin|Hin].
    + by eapply I4.
    + destruct (decide (id = k)); [|by apply not_elem_of_nil in Hin].
      apply list_elem_of_singleton in Hin. subst r. by repeat split.
Qed.

Lemma invariant_clients c w :
  (∀ id ws, is_attached id ws (set_clients c w) = true →
            truthy (query_id ws) = Some id) →
  server_invariant w → server_invariant (set_clients c w).
Proof. intros Hc (I1 & _ & I3 & I4). by split; [|split; [|split]]. Qed.

Lemma invariant_open ws w : server_invariant w → server_invariant (websocket_open ws w).
Proof.
  intros Hinv. pose proof Hinv as (_ & I2 & _).
  unfold websocket_open. destruct (truthy (query_id ws)) as [id|] eqn:Hq; [|done].
  apply invariant_clients; [|done].
  intros k ws' Ha. unfold is_attached in Ha. simpl in Ha.
  destruct (decide (k = id)) as [->|Hk].
  - rewrite lookup_alter_eq in Ha.
    destruct (clients w !! id) as [S|] eqn:E.
    + rewrite E in Ha. simpl in Ha. apply bool_decide_eq_true_1 in Ha.
      apply elem_of_union in Ha as [Ha|Ha].
      * apply elem_of_singleton in Ha. by subst ws'.
      * apply I2. unfold is_attached. rewrite E. by apply bool_decide_eq_true_2.
    + rewrite lookup_insert_eq in Ha. simpl in Ha.
      apply bool_decide_eq_true_1 in Ha. apply elem_of_union in Ha as [Ha|Ha].
      * apply elem_of_singleton in Ha. by subst ws'.
      * by apply not_elem_of_empty in Ha.
  - rewrite lookup_alter_ne in Ha by done. apply I2. unfold is_attached.
    destruct (clients w !! id); [done|]. by rewrite lookup_insert_ne in Ha.
Qed.

Lemma invariant_close ws w : server_invariant w → server_invariant (websocket_close ws w).
Proof.
  intros Hinv. pose proof Hinv as (_ & I2 & _).
  unfold websocket_close. destruct (truthy (query_id ws)) as [id|] eqn:Hq; [|done].
  destruct (clients w !! id) as [S|] eqn:E; [|done].
  apply invariant_clients; [|done].
  intros k ws' Ha. apply I2. unfold is_attached in *. simpl in Ha.
  destruct (decide (k = id)) as [->|Hk].
  - rewrite lookup_alter_eq, E in Ha. simpl in Ha. rewrite E.
    apply bool_decide_eq_true_1 in Ha. apply bool_decide_eq_true_2. set_solver.
  - by rewrite lookup_alter_ne in Ha.
Qed.

Lemma invariant_step is_url w w' :
  server_step is_url w w' → server_invariant w → server_invariant w'.
Proof.
  intros Hstep Hinv. destruct Hstep as [reqBody clock w resp w' job Hreq| | | |].
  - destruct job as [job|].
    + destruct (queued_job_started is_url _ _ _ _ _ _ Hreq) as (_ & _ & ->).
      by apply invariant_queued.
    + assert (w' = w) as ->; [|done].
      unfold handleDownloadClip in Hreq. repeat case_match; by simplify_eq.
  - destruct (deliver_published proc ev p w) as (rs & Hpub & Hrs).
    by eapply invariant_published.
  - by apply invariant_open.
  - by apply invariant_close.
  - destruct Hinv as (I1 & I2 & I3 & I4). by split; [|split; [|split]].
Qed.

Lemma invariant_fresh w : fresh_server w → server_invariant w.
Proof.
  intros (Hd & Hc & Hs & Hw). unfold server_invariant, writes_of, sent_to, is_attached.
  rewrite Hd, Hc, Hs, Hw. split; [|split; [|split]]; try done.
  - intros ws m H. by apply not_elem_of_nil in H.
  - intros id r H. by apply not_elem_of_nil in H.
Qed.

(** Whatever happens to a server that started fresh, the invariant holds. *)
Lemma invariant_reachable is_url w0 w :
  fresh_server w0 → rtc (server_step is_url) w0 w → server_invariant w.
Proof.
  intros Hfresh Hsteps. apply invariant_fresh in Hfresh.
  induction Hsteps as [|w1 w2 w3 Hstep _ IH]; [done|].
  apply IH. by eapply invariant_step.
Qed.

End ServerSteps.

Section Logs.

Lemma elem_of_sent_to ws m w : m ∈ sent_to ws w ↔ (ws, m) ∈ sent w.
Proof.
  unfold sent_to. rewrite list_elem_of_omap. split.
  - intros ([ws' m'] & Hin & Hf). simpl in Hf. case_decide; by simplify_eq.
  - intros Hin. exists (ws, m). split; [done|]. simpl. by rewrite decide_True.
Qed.

Lemma elem_of_writes_of id r w : r ∈ writes_of id w ↔ (id, r) ∈ writes w.
Proof.
  unfold writes_of. rewrite list_elem_of_omap. split.
  - intros ([id' r'] & Hin & Hf). simpl in Hf. case_decide; by simplify_eq.
  - intros Hin. exists (id, r). split; [done|]. simpl. by rewrite decide_True.
Qed.

End Logs.

(** X11. Whatever requests, process events and socket events reach a server
    that started fresh, in whatever order: every message ever sent to a
    socket has type "progress", is about the id the socket was opened with,
    and carries a record that was written to the store for that id. *)
Theorem observers_get_their_own_job (is_url : string → bool) (w0 w : World) :
  fresh_server w0 → rtc (server_step is_url) w0 w →
  ∀ ws m, (ws, m) ∈ sent w →
    msg_type m = "progress" ∧
    truthy (query_id ws) = Some (msg_download_id m) ∧
    (msg_download_id m, msg_data m) ∈ writes w.
Proof.
  intros Hfresh Hsteps ws m Hin.
  destruct (invariant_reachable is_url w0 w Hfresh Hsteps) as (_ & _ & I3 & _).
  apply elem_of_sent_to in Hin. destruct (I3 ws m Hin) as (? & ? & ?).
  repeat split; [done..|]. by apply elem_of_writes_of.
Qed.

Lemma observers_get_their_own_job_witness :
  msg_type (progress_message "job" (record error 0 "Download failed with code 1"))
    = "progress" ∧
  truthy (query_id sample_socket)
    = Some (msg_download_id
              (progress_message "job" (record error 0 "Download failed with code 1"))) ∧
  ("job", record error 0 "Download failed with code 1")
    ∈ writes (deliver yt_dlp (close (Some 1)) sample_job
                (websocket_open sample_socket empty_world)).2.
Proof.
  apply (observers_get_their_own_job (λ _, true) empty_world
           (deliver yt_dlp (close (Some 1)) sample_job
              (websocket_open sample_socket empty_world)).2
           ltac:(by repeat split)
           ltac:(eapply rtc_l; [apply step_open | apply rtc_once, step_event])
           sample_socket
           (progress_message "job" (record error 0 "Download failed with code 1"))).
  vm_compute. left.
Defined.

(** X12. At all times the store holds, for every id, the last record written
    for it, and nothing for an id that was never written. *)
Theorem store_holds_last_write (is_url : string → bool) (w0 w : World) :
  fresh_server w0 → rtc (server_step is_url) w0 w →
  ∀ id, downloadProgress w !! id = last (writes_of id w).
Proof.
  intros Hfresh Hsteps.
  by destruct (invariant_reachable is_url w0 w Hfresh Hsteps) as (I1 & _).
Qed.

Lemma store_holds_last_write_witness :
  downloadProgress (deliver yt_dlp (close (Some 1)) sample_job empty_world).2 !! "job"
  = last (writes_of "job" (deliver yt_dlp (close (Some 1)) sample_job empty_world).2).
Proof.
  apply (store_holds_last_write (λ _, true) empty_world).
  - by repeat split.
  - apply rtc_once, step_event.
Defined.

(** X13. At all times every record in the store is well-formed: a progress
    from 0 to 50 while [downloading], 50 or 60 while [processing], 100 when
    [completed], 0 on [error]; and the file name and the download URL are
    there exactly when the status is [completed]. *)
Theorem stored_records_well_formed (is_url : string → bool) (w0 w : World) :
  fresh_server w0 → rtc (server_step is_url) w0 w →
  ∀ id r, downloadProgress w !! id = Some r →
    0 ≤ progress r ≤ 100 ∧
    well_formed_record r ∧
    (status r = completed ↔ is_Some (filename r)) ∧
    (status r = completed ↔ is_Some (download_url r)).
Proof.
  intros Hfresh Hsteps id r Hr.
  destruct (invariant_reachable is_url w0 w Hfresh Hsteps) as (I1 & _ & _ & I4).
  rewrite I1 in Hr. apply last_Some_elem_of in Hr. apply I4 in Hr.
  pose proof Hr as Hwf. unfold well_formed_record in Hr.
  destruct (status r) eqn:Hst.
  - destruct Hr as (? & -> & ->). repeat split; try done; try lia;
      intros H; by destruct H.
  - destruct Hr as (? & -> & ->). repeat split; try done; try lia;
      intros H; by destruct H.
  - destruct Hr as (? & ? & -> & ->). repeat split; try done; try lia; by eexists.
  - destruct Hr as (? & -> & ->). repeat split; try done; try lia;
      intros H; by destruct H.
Qed.

Lemma stored_records_well_formed_witness :
  0 ≤ progress (record processing 60 "Cutting video...") ≤ 100 ∧
  well_formed_record (record processing 60 "Cutting video...") ∧
  (status (record processing 60 "Cutting video...") = completed
     ↔ is_Some (filename (record processing 60 "Cutting video..."))) ∧
  (status (record processing 60 "Cutting video...") = completed
     ↔ is_Some (download_url (record processing 60 "Cutting video..."))).
Proof.
  apply (stored_records_well_formed (λ _, true) empty_world
           (deliver yt_dlp (close (Some 0)) sample_job empty_world).2
           ltac:(by repeat split)
           ltac:(apply rtc_once, step_event)
           "job").
  reflexivity.
Defined.

(** X14. A socket opened without an [id], or with an empty one, is never sent
    anything. *)
Theorem socket_without_id_gets_nothing (is_url : string → bool) (w0 w : World)
    (ws : ServerWebSocket) :
  fresh_server w0 → rtc (server_step is_url) w0 w →
  truthy (query_id ws) = None → sent_to ws w = [].
Proof.
  intros Hfresh Hsteps Hq.
  destruct (invariant_reachable is_url w0 w Hfresh Hsteps) as (_ & _ & I3 & _).
  destruct (sent_to ws w) as [|m l] eqn:E; [done|].
  destruct (I3 ws m) as (_ & H & _); [rewrite E; left|congruence].
Qed.

Lemma socket_without_id_gets_nothing_witness :
  sent_to {| sock := 2; query_id := Some EmptyString |}
    (deliver yt_dlp (close (Some 0)) sample_job
       (websocket_open {| sock := 2; query_id := Some EmptyString |} empty_world)).2
  = [].
Proof.
  apply (socket_without_id_gets_nothing (λ _, true) empty_world).
  - by repeat split.
  - eapply rtc_l; [apply step_open|]. apply rtc_once, step_event.
  - reflexivity.
Defined.

Section NothingForgotten.

Lemma store_keys_kept id rs (m : gmap string DownloadProgress) k :
  is_Some (m !! k) → is_Some (foldl (λ m r, <[id := r]> m) m rs !! k).
Proof.
  revert m. induction rs as [|r rs IH]; intros m H; [done|].
  cbn [foldl]. apply IH. rewrite lookup_insert. by case_decide.
Qed.

Lemma step_keeps is_url w w' :
  server_step is_url w w' →
  (∀ id, is_Some (downloadProgress w !! id) → is_Some (downloadProgress w' !! id)) ∧
  (∀ id, is_Some (clients w !! id) → is_Some (clients w' !! id)) ∧
  (∀ id, writes_of id w `prefix_of` writes_of id w') ∧
  (∀ ws, sent_to ws w `prefix_of` sent_to ws w').
Proof.
  intros Hstep. destruct Hstep as [reqBody clock w resp w' job Hreq| | | |].
  - destruct job as [job|].
    + destruct (queued_job_started is_url _ _ _ _ _ _ Hreq) as (_ & _ & ->).
      repeat split; try done.
      * intros id H. simpl. rewrite lookup_insert. by case_decide.
      * intros id. unfold writes_of. simpl. rewrite omap_app. by apply prefix_app_r.
    + assert (w' = w) as ->; [|done].
      unfold handleDownloadClip in Hreq. repeat case_match; by simplify_eq.
  - destruct (deliver_published proc ev p w) as (rs & Hpub & _).
    destruct Hpub as (Hw & Hc & _ & Hd & Hs). repeat split.
    + intros id H. rewrite Hd. by apply store_keys_kept.
    + intros id. by rewrite Hc.
    + intros id. unfold writes_of. rewrite Hw, omap_app. by apply prefix_app_r.
    + intros ws'. rewrite Hs. by apply prefix_app_r.
  - unfold websocket_open. destruct (truthy (query_id ws)) as [id|]; [|done].
    repeat split; try done. intros k H. simpl.
    destruct (decide (id = k)) as [->|Hne].
    + rewrite lookup_alter_eq. destruct H as [S HS]. rewrite HS.
      rewrite HS. by eexists.
    + rewrite lookup_alter_ne by done.
      destruct (clients w !! id); [done|]. by rewrite lookup_insert_ne.
  - unfold websocket_close. destruct (truthy (query_id ws)) as [id|]; [|done].
    destruct (clients w !! id) eqn:E; [|done].
    repeat split; try done. intros k H. simpl.
    destruct (decide (id = k)) as [->|Hne].
    + rewrite lookup_alter_eq. by rewrite fmap_is_Some.
    + by rewrite lookup_alter_ne.
  - done.
Qed.

End NothingForgotten.

(** X15. Nothing is ever forgotten: whatever happens, an id that has a record
    keeps having one, an id that has a set of sockets keeps having one (be
    it empty), and the history of every record and of every socket only
    grows at its end. *)
Theorem nothing_is_forgotten (is_url : string → bool) (w w' : World) :
  rtc (server_step is_url) w w' →
  (∀ id, is_Some (downloadProgress w !! id) → is_Some (downloadProgress w' !! id)) ∧
  (∀ id, is_Some (clients w !! id) → is_Some (clients w' !! id)) ∧
  (∀ id, writes_of id w `prefix_of` writes_of id w') ∧
  (∀ ws, sent_to ws w `prefix_of` sent_to ws w').
Proof.
  induction 1 as [|w1 w2 w3 Hstep _ IH]; [done|].
  destruct (step_keeps is_url w1 w2 Hstep) as (H1 & H2 & H3 & H4).
  destruct IH as (J1 & J2 & J3 & J4). repeat split.
  - intros id H. by apply J1, H1.
  - intros id H. by apply J2, H2.
  - intros id. etrans; [apply H3|apply J3].
  - intros ws. etrans; [apply H4|apply J4].
Qed.

Lemma nothing_is_forgotten_witness :
  (∀ id, is_Some (downloadProgress watched_world !! id) →
         is_Some (downloadProgress (websocket_close sample_socket watched_world) !! id)) ∧
  (∀ id, is_Some (clients watched_world !! id) →
         is_Some (clients (websocket_close sample_socket watched_world) !! id)) ∧
  (∀ id, writes_of id watched_world
           `prefix_of` writes_of id (websocket_close sample_socket watched_world)) ∧
  (∀ ws, sent_to ws watched_world
           `prefix_of` sent_to ws (websocket_close sample_socket watched_world)).
Proof.
  apply (nothing_is_forgotten (λ _, true) watched_world
           (websocket_close sample_socket watched_world)).
  apply rtc_once, step_close.
Defined.

(** X16. Opening a socket twice attaches it once, and closing it twice is
    closing it once: the table of sockets is the same after the second call
    as after the first. *)
Theorem open_close_idempotent (ws : ServerWebSocket) (w : World) :
  websocket_open ws (websocket_open ws w) = websocket_open ws w ∧
  websocket_close ws (websocket_close ws w) = websocket_close ws w.
Proof.
  split.
  - unfold websocket_open. destruct (truthy (query_id ws)) as [id|] eqn:Hq; [|done].
    simpl. rewrite lookup_alter_eq.
    destruct (clients w !! id) as [S|] eqn:E.
    + rewrite E. simpl. unfold set_clients. simpl. f_equal.
      apply map_eq. intros k. destruct (decide (id = k)) as [<-|Hne].
      * rewrite !lookup_alter_eq, E. simpl. f_equal. set_solver.
      * by rewrite !lookup_alter_ne.
    + rewrite lookup_insert_eq. simpl. unfold set_clients. simpl. f_equal.
      apply map_eq. intros k. destruct (decide (id = k)) as [<-|Hne].
      * rewrite !lookup_alter_eq, lookup_insert_eq. simpl. f_equal. set_solver.
      * by rewrite !lookup_alter_ne.
  - unfold websocket_close. destruct (truthy (query_id ws)) as [id|] eqn:Hq; [|done].
    destruct (clients w !! id) as [S|] eqn:E; [|by rewrite E].
    simpl. rewrite lookup_alter_eq, E. simpl. unfold set_clients. simpl. f_equal.
    apply map_eq. intros k. destruct (decide (id = k)) as [<-|Hne].
    + rewrite !lookup_alter_eq, E. simpl. f_equal. set_solver.
    + by rewrite !lookup_alter_ne.
Qed.

Section Identifiers.

Lemma append_assoc_s (a b c : string) : (a +:+ b) +:+ c = a +:+ (b +:+ c).
Proof.
  induction a as [|x a IH]; [done|].
  change (String x ((a +:+ b) +:+ c) = String x (a +:+ (b +:+ c))). by rewrite IH.
Qed.

Lemma length_append (a b : string) :
  String.length (a +:+ b) = (String.length a + String.length b)%nat.
Proof.
  induction a as [|x a IH]; [done|].
  change (S (String.length (a +:+ b)) = S (String.length a + String.length b)).
  by rewrite IH.
Qed.

Lemma remove_chars_append p (a b : string) :
  remove_chars p (a +:+ b) = remove_chars p a +:+ remove_chars p b.
Proof.
  induction a as [|x a IH]; [done|].
  change (remove_chars p (String x (a +:+ b))
          = remove_chars p (String x a) +:+ remove_chars p b).
  cbn [remove_chars]. destruct (p x); [exact IH|].
  change (String x (remove_chars p (a +:+ b))
          = String x (remove_chars p a +:+ remove_chars p b)).
  by rewrite IH.
Qed.

Lemma remove_chars_digits (p : ascii → bool) (s : string) :
  (∀ c, is_digit c = true → p c = false) →
  all_digits s = true → remove_chars p s = s.
Proof.
  intros Hp. induction s as [|c s IH]; [done|].
  cbn [all_digits remove_chars]. intros H. apply andb_true_iff in H as [Hc Hs].
  by rewrite (Hp c Hc), (IH Hs).
Qed.

Lemma digit_not_separator c :
  is_digit c = true →
  Ascii.eqb c "-" || Ascii.eqb c ":" || Ascii.eqb c "T" = false.
Proof.
  intros Hd. apply is_digit_code in Hd.
  repeat (apply orb_false_iff; split);
    (destruct (Ascii.eqb c _) eqn:E; [|done]);
    apply Ascii.eqb_eq in E; subst c; unfold code in Hd; simpl in Hd; lia.
Qed.

Lemma substring_prefix (a b : string) :
  String.substring 0 (String.length a) (a +:+ b) = a.
Proof.
  induction a as [|x a IH]; [by destruct b|].
  change (String x (String.substring 0 (String.length a) (a +:+ b)) = String x a).
  by rewrite IH.
Qed.

Lemma length_hex bytes : String.length (hex bytes) = (2 * length bytes)%nat.
Proof.
  induction bytes as [|b bytes IH]; [done|].
  cbn [hex String.length length]. rewrite IH. lia.
Qed.

Lemma all_hex_hex bytes : all_hex (hex bytes) = true.
Proof.
  induction bytes as [|b bytes IH]; [done|].
  pose proof (code_range b).
  cbn [hex all_hex]. rewrite IH, andb_true_r.
  rewrite !hex_digit_alnum; [done| |].
  - apply Z.mod_pos_bound. lia.
  - split; [apply Z.div_pos; lia | apply Z.div_lt_upper_bound; lia].
Qed.

Lemma append_inj_length (a b x y : string) :
  String.length x = String.length y → a +:+ x = b +:+ y → a = b ∧ x = y.
Proof.
  intros Hlen. revert b. induction a as [|c a IH]; intros [|d b] H.
  - done.
  - change (x = String d (b +:+ y)) in H. subst x.
    cbn [String.length] in Hlen. rewrite length_append in Hlen. lia.
  - change (String c (a +:+ x) = y) in H. subst y.
    cbn [String.length] in Hlen. rewrite length_append in Hlen. lia.
  - change (String c (a +:+ x) = String d (b +:+ y)) in H.
    injection H as -> H. destruct (IH b H) as [-> ->]. done.
Qed.

Lemma hex_digit_inj n m :
  0 ≤ n < 16 → 0 ≤ m < 16 → hex_digit n = hex_digit m → n = m.
Proof.
  intros Hn Hm.
  assert (n = 0 ∨ n = 1 ∨ n = 2 ∨ n = 3 ∨ n = 4 ∨ n = 5 ∨ n = 6 ∨ n = 7 ∨
          n = 8 ∨ n = 9 ∨ n = 10 ∨ n = 11 ∨ n = 12 ∨ n = 13 ∨ n = 14 ∨ n = 15)
    as Hn' by lia.
  assert (m = 0 ∨ m = 1 ∨ m = 2 ∨ m = 3 ∨ m = 4 ∨ m = 5 ∨ m = 6 ∨ m = 7 ∨
          m = 8 ∨ m = 9 ∨ m = 10 ∨ m = 11 ∨ m = 12 ∨ m = 13 ∨ m = 14 ∨ m = 15)
    as Hm' by lia.
  clear Hn Hm.
  repeat (destruct Hn' as [->|Hn']); try subst n;
    repeat (destruct Hm' as [->|Hm']); try subst m;
    vm_compute; intros H; first [reflexivity | discriminate H].
Qed.

Lemma code_inj (a b : ascii) : code a = code b → a = b.
Proof.
  unfold code. intros H. apply N2Z.inj in H.
  by rewrite <- (ascii_N_embedding a), <- (ascii_N_embedding b), H.
Qed.

Lemma hex_inj (r1 r2 : list ascii) : hex r1 = hex r2 → r1 = r2.
Proof.
  revert r2. induction r1 as [|a r1 IH]; intros [|b r2] H; try done.
  cbn [hex] in H. injection H as H1 H2 H3.
  pose proof (code_range a). pose proof (code_range b).
  apply hex_digit_inj in H1;
    [|split; [apply Z.div_pos; lia | apply Z.div_lt_upper_bound; lia]..].
  apply hex_digit_inj in H2; [|apply Z.mod_pos_bound; lia..].
  f_equal; [|by apply IH].
  apply code_inj.
  rewrite (Z.div_mod (code a) 16), (Z.div_mod (code b) 16) by lia. lia.
Qed.

End Identifiers.

(** X17. The shape of an id.  When the clock reads
    [YYYY-MM-DDTHH:mm:ss.sssZ], the id is ["clip_"], the fourteen digits of
    the date and the time, a dot, an underscore, and two lowercase
    hexadecimal digits for each random byte.  The dot is the one before the
    milliseconds: fifteen characters are kept and only fourteen are
    digits. *)
Theorem generateId_shape (year month day hours minutes seconds millis : string)
    (bytes : list ascii) :
  digits_field 4 year = true → digits_field 2 month = true →
  digits_field 2 day = true → digits_field 2 hours = true →
  digits_field 2 minutes = true → digits_field 2 seconds = true →
  generateId {| toISOString := iso_8601 year month day hours minutes seconds millis;
                randomBytes := bytes |}
  = "clip_" +:+ year +:+ month +:+ day +:+ hours +:+ minutes +:+ seconds +:+
    "._" +:+ hex bytes ∧
  all_hex (hex bytes) = true ∧
  String.length (hex bytes) = (2 * length bytes)%nat.
Proof.
  unfold digits_field. intros Hy Hmo Hd Hh Hmi Hs.
  repeat match goal with
         | H : _ && _ = true |- _ =>
             let L := fresh "L" in
             apply andb_true_iff in H as [H L]; apply Nat.eqb_eq in L
         end.
  split; [|split; [apply all_hex_hex | apply length_hex]].
  unfold generateId, iso_8601. cbn [toISOString randomBytes].
  set (p := λ c, Ascii.eqb c "-" || Ascii.eqb c ":" || Ascii.eqb c "T").
  assert (Hp : ∀ c, is_digit c = true → p c = false)
    by (intros c; apply digit_not_separator).
  rewrite !remove_chars_append.
  rewrite (remove_chars_digits p year), (remove_chars_digits p month),
    (remove_chars_digits p day), (remove_chars_digits p hours),
    (remove_chars_digits p minutes), (remove_chars_digits p seconds) by done.
  change (remove_chars p "-") with EmptyString.
  change (remove_chars p "T") with EmptyString.
  change (remove_chars p ":") with EmptyString.
  change (remove_chars p ".") with ".".
  repeat change (EmptyString +:+ ?x) with x.
  set (stamp := year +:+ month +:+ day +:+ hours +:+ minutes +:+ seconds +:+ ".").
  assert (Hlen : String.length stamp = 15%nat).
  { unfold stamp. rewrite !length_append. simpl. lia. }
  assert (Hsplit :
    year +:+ month +:+ day +:+ hours +:+ minutes +:+ seconds +:+ "." +:+
      remove_chars p millis +:+ remove_chars p "Z"
    = stamp +:+ (remove_chars p millis +:+ remove_chars p "Z")).
  { unfold stamp. by rewrite !append_assoc_s. }
  rewrite Hsplit, <- Hlen, substring_prefix.
  unfold stamp. by rewrite !append_assoc_s.
Qed.

Lemma generateId_shape_witness :
  generateId sample_clock = "clip_20261102225301._01ffab10".
Proof.
  destruct (generateId_shape "2026" "11" "02" "22" "53" "01" "123"
              ["001"; "255"; "171"; "016"]%char) as [H _];
    [reflexivity..|exact H].
Defined.

(** X18. Two ids made with as many random bytes each are the same only if
    the random bytes are the same and the kept parts of the two clock
    readings are: requests that draw different random bytes get different
    ids, whatever the clock. *)
Theorem generateId_injective (c1 c2 : Clock) :
  length (randomBytes c1) = length (randomBytes c2) →
  generateId c1 = generateId c2 →
  randomBytes c1 = randomBytes c2 ∧
  String.substring 0 15
    (remove_chars (λ c, Ascii.eqb c "-" || Ascii.eqb c ":" || Ascii.eqb c "T")
                  (toISOString c1))
  = String.substring 0 15
      (remove_chars (λ c, Ascii.eqb c "-" || Ascii.eqb c ":" || Ascii.eqb c "T")
                    (toISOString c2)).
Proof.
  intros Hlen H. unfold generateId in H. cbv zeta in H.
  apply String.app_inj in H.
  rewrite <- !append_assoc_s in H.
  apply append_inj_length in H; [|by rewrite !length_hex, Hlen].
  destruct H as [H1 H2]. apply hex_inj in H2. split; [done|].
  apply (append_inj_length _ _ "_" "_") in H1; [|done]. by destruct H1.
Qed.

Lemma generateId_injective_witness :
  generateId sample_clock
  ≠ generateId {| toISOString := toISOString sample_clock;
                  randomBytes := ["001"; "255"; "171"; "017"]%char |}.
Proof.
  intros H.
  destruct (generateId_injective sample_clock
              {| toISOString := toISOString sample_clock;
                 randomBytes := ["001"; "255"; "171"; "017"]%char |})
    as [Hb _]; [reflexivity | exact H | discriminate Hb].
Defined.

Section StableSort.

Variable A : Type.
Variable rank : A → number.


Lemma sort_insert_perm (cmp : A → A → number) x l : sort_insert cmp x l ≡ₚ x :: l.
Proof.
  induction l as [|y l IH]; [done|].
  cbn [sort_insert]. destruct (num_gt _ _); [|done].
  rewrite IH. apply Permutation_swap.
Qed.

Lemma Array_sort_perm (cmp : A → A → number) l : Array_sort cmp l ≡ₚ l.
Proof.
  induction l as [|x l IH]; [done|].
  cbn [Array_sort]. by rewrite sort_insert_perm, IH.
Qed.

Lemma sort_insert_sorted x l :
  rank x ≠ NaN → Forall (λ a, rank a ≠ NaN) l →
  StronglySorted (λ a b, num_ge (rank a) (rank b) = true) l →
  StronglySorted (λ a b, num_ge (rank a) (rank b) = true) (sort_insert (λ a b, num_sub (rank b) (rank a)) x l).
Proof.
  intros Hx Hl Hs. induction Hs as [|y l Hs IH Hy]; [by repeat constructor|].
  apply Forall_cons in Hl as [Hy' Hl].
  cbn [sort_insert]. cbn beta.
  destruct (rank x) as [|kx] eqn:Ex; [done|].
  destruct (rank y) as [|ky] eqn:Ey; [done|].
  cbn [num_sub num_gt]. destruct (0 <? ky - kx) eqn:E.
  - apply Z.ltb_lt in E. constructor; [by apply IH|].
    rewrite (sort_insert_perm (λ a b, num_sub (rank b) (rank a)) x l). constructor;
      [|eapply Forall_impl; [exact Hy|]; intros z Hz; cbn beta in *; by rewrite Ey].
    rewrite Ex, Ey. cbn [num_ge]. apply Z.leb_le. lia.
  - apply Z.ltb_ge in E. constructor.
    { constructor; [exact Hs|]. eapply Forall_impl; [exact Hy|].
      intros z Hz. cbn beta in *. by rewrite Ey. }
    constructor.
    + rewrite Ex, Ey. cbn [num_ge]. apply Z.leb_le. lia.
    + eapply Forall_impl; [exact Hy|]. intros z Hz. cbn beta in Hz.
      rewrite Ex. destruct (rank z) as [|kz]; [done|]. cbn [num_ge] in *.
      apply Z.leb_le. apply Z.leb_le in Hz. lia.
Qed.

Lemma Array_sort_sorted l :
  Forall (λ a, rank a ≠ NaN) l →
  StronglySorted (λ a b, num_ge (rank a) (rank b) = true) (Array_sort (λ a b, num_sub (rank b) (rank a)) l).
Proof.
  induction l as [|x l IH]; [constructor|].
  intros H. apply Forall_cons in H as [Hx Hl]. cbn [Array_sort].
  apply sort_insert_sorted; [done| |by apply IH].
  by rewrite Array_sort_perm.
Qed.

Lemma sort_insert_stable (r : Z) x l :
  rank x ≠ NaN → Forall (λ a, rank a ≠ NaN) l →
  filter (λ a, rank a = Int r) (sort_insert (λ a b, num_sub (rank b) (rank a)) x l)
  = filter (λ a, rank a = Int r) (x :: l).
Proof.
  intros Hx Hl. induction Hl as [|y l Hy Hl IH]; [done|].
  cbn [sort_insert]. cbn beta.
  destruct (rank x) as [|kx] eqn:Ex; [done|].
  destruct (rank y) as [|ky] eqn:Ey; [done|].
  cbn [num_sub num_gt]. destruct (0 <? ky - kx) eqn:E; [|done].
  apply Z.ltb_lt in E.
  rewrite (filter_cons _ y), IH, !filter_cons, Ex, Ey.
  repeat case_decide; simplify_eq; try done; lia.
Qed.

Lemma Array_sort_stable (r : Z) l :
  Forall (λ a, rank a ≠ NaN) l →
  filter (λ a, rank a = Int r) (Array_sort (λ a b, num_sub (rank b) (rank a)) l)
  = filter (λ a, rank a = Int r) l.
Proof.
  induction l as [|x l IH]; [done|].
  intros H. apply Forall_cons in H as [Hx Hl]. cbn [Array_sort].
  rewrite sort_insert_stable; [|done|by rewrite Array_sort_perm].
  rewrite !filter_cons. by rewrite IH.
Qed.

Lemma Array_sort_ties l :
  (∀ a b, a ∈ l → b ∈ l → (λ a b, num_sub (rank b) (rank a)) a b = Int 0) → Array_sort (λ a b, num_sub (rank b) (rank a)) l = l.
Proof.
  induction l as [|x l IH]; [done|].
  intros H. cbn [Array_sort]. rewrite IH.
  - destruct l as [|y l]; [done|]. cbn [sort_insert].
    rewrite H; [done|left|right; left].
  - intros a b Ha Hb. apply H; by right.
Qed.

End StableSort.

Section Formats.

Lemma pushed_rank_some (entries : list FormatEntry) :
  Forall (λ f, qualityOrder (or_else (entry_quality_label f) "unknown") ≠ Inherited)
         entries →
  Forall (λ v, quality_rank (quality v) ≠ NaN)
         (map pushed (filter (λ f, has_video_and_audio f = true) entries)).
Proof.
  intros H. apply Forall_map. apply Forall_forall. intros f Hf.
  apply list_elem_of_filter in Hf as [_ Hf].
  rewrite Forall_forall in H. specialize (H f Hf).
  cbn [pushed quality]. unfold quality_rank.
  destruct (qualityOrder _) as [n| |]; [by destruct (n =? 0)|done|done].
Qed.

End Formats.

(** X19. The formats of the video information are entries of the input that
    have both a video and an audio codec (a codec is there unless it is the
    string "none"), each listed at most as often as it is in the input, and
    the first ten of them at most. *)
Theorem formats_listed (entries : list FormatEntry) :
  let candidates := filter (λ f, has_video_and_audio f = true) entries in
  videoInfo_formats entries ⊆+ map pushed candidates ∧
  length (videoInfo_formats entries) = (length candidates `min` 10)%nat ∧
  ∀ v, v ∈ videoInfo_formats entries →
       ∃ f, f ∈ entries ∧ v = pushed f ∧
            entry_vcodec f ≠ Some "none" ∧ entry_acodec f ≠ Some "none".
Proof.
  intros candidates.
  assert (Hsub : videoInfo_formats entries ⊆+ map pushed candidates).
  { unfold videoInfo_formats. fold candidates.
    etrans; [apply sublist_submseteq, sublist_take|].
    by rewrite Array_sort_perm. }
  split; [exact Hsub|]. split.
  - unfold videoInfo_formats. fold candidates.
    rewrite length_take, (Permutation_length (Array_sort_perm _ _ _)), length_map.
    lia.
  - intros v Hv. eapply elem_of_submseteq in Hv; [|exact Hsub].
    apply list_elem_of_fmap in Hv as (f & -> & Hf).
    apply list_elem_of_filter in Hf as [Hboth Hf].
    exists f. split; [done|]. split; [done|].
    unfold has_video_and_audio in Hboth. apply andb_true_iff in Hboth as [H1 H2].
    apply negb_true_iff, bool_decide_eq_false_1 in H1.
    apply negb_true_iff, bool_decide_eq_false_1 in H2. done.
Qed.

(** X20. The best formats come first.  When no quality label is the name of
    a member of [Object.prototype], the formats listed are the head of a
    stable sorting of all candidates by rank, highest first: with the
    formats left out put behind them, ranks never increase, and candidates
    of equal rank are in the order of the input.  So no format left out
    ranks above one that is listed. *)
Theorem formats_best_first (entries : list FormatEntry) :
  Forall (λ f, qualityOrder (or_else (entry_quality_label f) "unknown") ≠ Inherited)
         entries →
  let candidates := map pushed (filter (λ f, has_video_and_audio f = true) entries) in
  ∃ left_out,
    videoInfo_formats entries ++ left_out ≡ₚ candidates ∧
    StronglySorted
      (λ a b, num_ge (quality_rank (quality a)) (quality_rank (quality b)) = true)
      (videoInfo_formats entries ++ left_out) ∧
    (∀ r : Z,
       filter (λ v, quality_rank (quality v) = Int r)
              (videoInfo_formats entries ++ left_out)
       = filter (λ v, quality_rank (quality v) = Int r) candidates) ∧
    (∀ a b, a ∈ videoInfo_formats entries → b ∈ left_out →
       num_ge (quality_rank (quality a)) (quality_rank (quality b)) = true).
Proof.
  intros H candidates. apply pushed_rank_some in H. fold candidates in H.
  exists (drop 10 (Array_sort by_quality candidates)).
  unfold videoInfo_formats. fold candidates.
  pose proof (Array_sort_sorted _ (λ v, quality_rank (quality v)) candidates H) as Hs.
  rewrite take_drop. split; [apply Array_sort_perm|]. split; [exact Hs|]. split.
  - intros r. by apply (Array_sort_stable _ (λ v, quality_rank (quality v))).
  - intros a b Ha Hb.
    change (Array_sort _ candidates) with (Array_sort by_quality candidates) in Hs.
    rewrite <- (take_drop 10 (Array_sort by_quality candidates)) in Hs.
    by apply (StronglySorted_app_1_elem_of _ _ _ a b Hs).
Qed.

Lemma formats_best_first_witness :
  ∃ left_out,
    videoInfo_formats [sample_entry "18" "360p"; sample_entry "22" "720p";
                       sample_entry "37" "1080p"] ++ left_out
    ≡ₚ map pushed [sample_entry "18" "360p"; sample_entry "22" "720p";
                   sample_entry "37" "1080p"] ∧
    StronglySorted
      (λ a b, num_ge (quality_rank (quality a)) (quality_rank (quality b)) = true)
      (videoInfo_formats [sample_entry "18" "360p"; sample_entry "22" "720p";
                          sample_entry "37" "1080p"] ++ left_out).
Proof.
  destruct (formats_best_first [sample_entry "18" "360p"; sample_entry "22" "720p";
                                sample_entry "37" "1080p"])
    as (left_out & Hp & Hs & _).
  - repeat constructor; by vm_compute.
  - exists left_out. split; [exact Hp | exact Hs].
Defined.

(** X21. "360p" ranks with the labels that are not in the table: its place
    in the table is 0, which is replaced by -1 like a missing one.  Formats
    whose labels are "360p", "unknown" or any other label outside "2160p",
    "1440p", "1080p", "720p" and "480p" are therefore listed in the order
    of the input: a 360p format is not moved ahead of a 240p or an
    unlabelled one. *)
Theorem formats_360p_unranked (entries : list FormatEntry) :
  Forall (λ f, match qualityOrder (or_else (entry_quality_label f) "unknown") with
               | Own 0 | Undefined => True
               | _ => False
               end) entries →
  videoInfo_formats entries
  = take 10 (map pushed (filter (λ f, has_video_and_audio f = true) entries)).
Proof.
  intros H. unfold videoInfo_formats. f_equal.
  apply (Array_sort_ties _ (λ v, quality_rank (quality v))).
  assert (Hrank : ∀ v,
            v ∈ map pushed (filter (λ f, has_video_and_audio f = true) entries) →
            quality_rank (quality v) = Int (-1)).
  { intros v Hv. apply list_elem_of_fmap in Hv as (f & -> & Hf).
    apply list_elem_of_filter in Hf as [_ Hf].
    rewrite Forall_forall in H. specialize (H f Hf).
    cbn [pushed quality]. unfold quality_rank.
    destruct (qualityOrder _) as [[| |]| |]; done. }
  intros a b Ha Hb. by rewrite (Hrank a Ha), (Hrank b Hb).
Qed.

Lemma formats_360p_unranked_witness :
  map quality (videoInfo_formats [sample_entry "160" "144p"; sample_entry "133" "240p";
                                  sample_entry "18" "360p"])
  = ["144p"; "240p"; "360p"].
Proof.
  rewrite (formats_360p_unranked [sample_entry "160" "144p"; sample_entry "133" "240p";
                                  sample_entry "18" "360p"]).
  - reflexivity.
  - repeat constructor.
Defined.
